(** * sigslot.h: signals, slots and connections

    A shallow embedding of [src/sigslot.h] (namespace [sigslot]) and the
    properties of its connect / disconnect / emit / copy / destroy
    operations.

    The objects of the library live on a small heap: connection objects
    ([_connection], allocated with [new]), signal objects (their
    [m_connected_slots], a [std::list] of connection pointers) and
    receiver objects ([has_slots], their [m_senders], a [std::set] of
    signal pointers).  Every operation returns an [outcome]: a value, or
    undefined behaviour (a dangling pointer or an invalidated iterator is
    used), or an exhausted iteration budget for the loops whose
    termination is not structural.

    The lock policy is the [single_threaded] one ([lock] and [unlock] do
    nothing); handlers are opaque: an invocation is recorded as an event
    and does not touch the signal/slot heap. *)

From stdpp Require Import base option list gmap sets.
From Stdlib Require Import Lia.

Set Default Proof Using "Type".

(** ** Outcomes *)

Inductive outcome (A : Type) : Type :=
  | Ok (a : A)      (* the call returns *)
  | UB              (* undefined behaviour *)
  | OutOfFuel.      (* the iteration budget of a loop is exhausted *)

Arguments Ok {A} a.
Arguments UB {A}.
Arguments OutOfFuel {A}.

Definition obind {A B : Type} (m : outcome A) (k : A → outcome B) : outcome B :=
  match m with
  | Ok a => k a
  | UB => UB
  | OutOfFuel => OutOfFuel
  end.

Notation "x ←← m ; k" := (obind m (fun x => k))
  (at level 20, m at level 100, k at level 200, right associativity,
   format "'[' x  ←←  m ; '/' k ']'").

(** Dereferencing a pointer: the object must be alive. *)
Definition deref {A : Type} (o : option A) : outcome A :=
  match o with
  | Some a => Ok a
  | None => UB
  end.

(** ** [std::list]

    A list is a sequence of nodes; an iterator designates a node (or is
    the past-the-end iterator).  [push_back] keeps every iterator valid,
    [erase] invalidates the iterators of the erased node, and using an
    invalidated iterator is undefined. *)

Module StdList.

Definition node := nat.

Record t (A : Type) : Type := Mk {
  cells : list (node * A);
  fresh : node
}.
Arguments Mk {A} cells fresh.
Arguments cells {A} _.
Arguments fresh {A} _.

Inductive iterator : Type :=
  | At (n : node)
  | End.

Definition first_of {A : Type} (cs : list (node * A)) : iterator :=
  match cs with
  | [] => End
  | (n, _) :: _ => At n
  end.

Fixpoint value_at {A : Type} (n : node) (cs : list (node * A)) : option A :=
  match cs with
  | [] => None
  | (m, x) :: rest => if Nat.eqb n m then Some x else value_at n rest
  end.

Fixpoint after {A : Type} (n : node) (cs : list (node * A)) : option iterator :=
  match cs with
  | [] => None
  | (m, _) :: rest => if Nat.eqb n m then Some (first_of rest) else after n rest
  end.

Section Ops.
Context {A : Type}.

Definition empty : t A := Mk [] 0.

Definition values (l : t A) : list A := (cells l).*2.

Definition begin (l : t A) : iterator := first_of (cells l).

Definition push_back (l : t A) (x : A) : t A :=
  Mk (cells l ++ [(fresh l, x)]) (S (fresh l)).

(** [*it] *)
Definition get (l : t A) (it : iterator) : outcome A :=
  match it with
  | At n => deref (value_at n (cells l))
  | End => UB
  end.

(** [++it] *)
Definition incr (l : t A) (it : iterator) : outcome iterator :=
  match it with
  | At n => deref (after n (cells l))
  | End => UB
  end.

(** [erase(it)] *)
Definition erase (l : t A) (it : iterator) : outcome (t A) :=
  match it with
  | At n =>
      match value_at n (cells l) with
      | Some _ => Ok (Mk (filter (λ c, c.1 ≠ n) (cells l)) (fresh l))
      | None => UB
      end
  | End => UB
  end.

(** [erase(begin(), end())] *)
Definition clear (l : t A) : t A := Mk [] (fresh l).

(** [remove(value)]: every element equal to [value] goes. *)
Definition remove `{EqDecision A} (l : t A) (x : A) : t A :=
  Mk (filter (λ c, c.2 ≠ x) (cells l)) (fresh l).

(** Node names are distinct and below the next fresh one. *)
Definition wf (l : t A) : Prop :=
  NoDup (cells l).*1 ∧ Forall (λ n, n < fresh l) (cells l).*1.
End Ops.

End StdList.

(** ** The heap of connections, signals and receivers *)

Definition ptr := nat.

(** A pointer to a member function of the destination type, taking [Args...]. *)
Definition memfun := nat.

(** [_connection<dest_type, mt_policy, Args...>] *)
Record connection : Type := Connection {
  m_pobject : ptr;
  m_pmemfun : memfun
}.

Global Instance connection_eq_dec : EqDecision connection.
Proof. solve_decision. Defined.

Record world : Type := World {
  conns : gmap ptr connection;              (* live connection objects *)
  signals : gmap ptr (StdList.t ptr);       (* live signals: m_connected_slots *)
  receivers : gmap ptr (gset ptr);          (* live has_slots objects: m_senders *)
  brk : ptr                                 (* next address handed out by new *)
}.

Definition set_conns (w : world) (c : gmap ptr connection) : world :=
  World c (signals w) (receivers w) (brk w).
Definition set_signals (w : world) (s : gmap ptr (StdList.t ptr)) : world :=
  World (conns w) s (receivers w) (brk w).
Definition set_receivers (w : world) (r : gmap ptr (gset ptr)) : world :=
  World (conns w) (signals w) r (brk w).

Definition empty_world : world := World ∅ ∅ ∅ 0.

(** [new _connection(...)] *)
Definition new_connection (w : world) (c : connection) : ptr * world :=
  (brk w, World (<[brk w := c]> (conns w)) (signals w) (receivers w) (S (brk w))).

(** [delete slot] *)
Definition delete_connection (w : world) (slot : ptr) : outcome world :=
  _ ←← deref (conns w !! slot);
  Ok (set_conns w (delete slot (conns w))).

(** [this->m_connected_slots] *)
Definition m_connected_slots (w : world) (this : ptr) : outcome (StdList.t ptr) :=
  deref (signals w !! this).

Definition set_connected_slots (w : world) (this : ptr) (l : StdList.t ptr) : world :=
  set_signals w (<[this := l]> (signals w)).

(** ** [_connection]: [getdest], [clone], [duplicate], [emit] *)

Definition getdest (w : world) (slot : ptr) : outcome ptr :=
  c ←← deref (conns w !! slot);
  Ok (m_pobject c).

Definition clone (w : world) (slot : ptr) : outcome (ptr * world) :=
  c ←← deref (conns w !! slot);
  Ok (new_connection w c).

Definition duplicate (w : world) (slot : ptr) (pnewdest : ptr) : outcome (ptr * world) :=
  c ←← deref (conns w !! slot);
  Ok (new_connection w (Connection pnewdest (m_pmemfun c))).

(** An invocation [(m_pobject->*m_pmemfun)(args...)]. *)
Record call (Args : Type) : Type := Call {
  call_dest : ptr;
  call_memfun : memfun;
  call_args : Args
}.
Arguments Call {Args} _ _ _.
Arguments call_dest {Args} _.
Arguments call_memfun {Args} _.
Arguments call_args {Args} _.

Definition connection_emit {Args : Type} (w : world) (slot : ptr) (args : Args)
    : outcome (call Args) :=
  c ←← deref (conns w !! slot);
  _ ←← deref (receivers w !! m_pobject c);
  Ok (Call (m_pobject c) (m_pmemfun c) args).

(** ** [has_slots]: the sender set *)

(** [has_slots()]: the default constructor, at address [this]. *)
Definition has_slots_new (w : world) (this : ptr) : world :=
  set_receivers w (<[this := ∅]> (receivers w)).

(** [has_slots::signal_connect(sender)]: [m_senders.insert(sender)] *)
Definition signal_connect (w : world) (this sender : ptr) : outcome world :=
  ms ←← deref (receivers w !! this);
  Ok (set_receivers w (<[this := {[sender]} ∪ ms]> (receivers w))).

(** [has_slots::signal_disconnect(sender)]: [m_senders.erase(sender)] *)
Definition signal_disconnect (w : world) (this sender : ptr) : outcome world :=
  ms ←← deref (receivers w !! this);
  Ok (set_receivers w (<[this := ms ∖ {[sender]}]> (receivers w))).

(** ** [_signal] and [signal]

    A range-based [for] over [m_connected_slots] whose body leaves the
    list alone is a recursion over its elements.  Where the body appends
    to the list ([slot_duplicate], the copy constructor) or erases from it
    ([slot_disconnect]) the loop is written with its iterator, and takes
    an iteration budget. *)

(** [signal()]: the default constructor, at address [this]. *)
Definition signal_new (w : world) (this : ptr) : world :=
  set_connected_slots w this StdList.empty.

(** [m_connected_slots.push_back(conn)] *)
Definition push_back_slot (w : world) (this conn : ptr) : outcome world :=
  l ←← m_connected_slots w this;
  Ok (set_connected_slots w this (StdList.push_back l conn)).

(** [signal::connect(pclass, pmemfun)] *)
Definition connect (w : world) (this pclass : ptr) (pmemfun : memfun) : outcome world :=
  _ ←← m_connected_slots w this;
  let pw := new_connection w (Connection pclass pmemfun) in
  w1 ←← push_back_slot pw.2 this pw.1;
  signal_connect w1 pclass this.

(** [signal::emit(args...)] *)
Fixpoint emit_loop {Args : Type} (w : world) (slots : list ptr) (args : Args)
    : outcome (list (call Args)) :=
  match slots with
  | [] => Ok []
  | slot :: rest =>
      c ←← connection_emit w slot args;
      cs ←← emit_loop w rest args;
      Ok (c :: cs)
  end.

Definition emit {Args : Type} (w : world) (this : ptr) (args : Args)
    : outcome (list (call Args)) :=
  l ←← m_connected_slots w this;
  emit_loop w (StdList.values l) args.

(** [signal::operator()(args...)] *)
Definition call_operator {Args : Type} (w : world) (this : ptr) (args : Args)
    : outcome (list (call Args)) :=
  emit w this args.

(** [_signal::slot_duplicate(oldtarget, newtarget)], from iterator [it] on. *)
Fixpoint slot_duplicate_from (fuel : nat) (w : world) (this oldtarget newtarget : ptr)
    (it : StdList.iterator) : outcome world :=
  match fuel with
  | 0 => OutOfFuel
  | S fuel' =>
      match it with
      | StdList.End => Ok w
      | StdList.At _ =>
          l ←← m_connected_slots w this;
          slot ←← StdList.get l it;
          d ←← getdest w slot;
          w1 ←← (if decide (d = oldtarget) then
                   pw ←← duplicate w slot newtarget;
                   push_back_slot pw.2 this pw.1
                 else Ok w);
          l1 ←← m_connected_slots w1 this;
          it' ←← StdList.incr l1 it;
          slot_duplicate_from fuel' w1 this oldtarget newtarget it'
      end
  end.

Definition slot_duplicate (fuel : nat) (w : world) (this oldtarget newtarget : ptr)
    : outcome world :=
  l ←← m_connected_slots w this;
  slot_duplicate_from fuel w this oldtarget newtarget (StdList.begin l).

(** [_signal::_signal(const _signal& s)]: the loop runs over the
    [m_connected_slots] of the signal under construction. *)
Fixpoint signal_copy_from (fuel : nat) (w : world) (this : ptr) (it : StdList.iterator)
    : outcome world :=
  match fuel with
  | 0 => OutOfFuel
  | S fuel' =>
      match it with
      | StdList.End => Ok w
      | StdList.At _ =>
          l ←← m_connected_slots w this;
          slot ←← StdList.get l it;
          d ←← getdest w slot;
          w1 ←← signal_connect w d this;
          pw ←← clone w1 slot;
          w2 ←← push_back_slot pw.2 this pw.1;
          l2 ←← m_connected_slots w2 this;
          it' ←← StdList.incr l2 it;
          signal_copy_from fuel' w2 this it'
      end
  end.

(** [signal::signal(const signal& s)], constructing at address [this]. *)
Definition signal_copy (fuel : nat) (w : world) (this s : ptr) : outcome world :=
  _ ←← m_connected_slots w s;
  let w0 := signal_new w this in
  l ←← m_connected_slots w0 this;
  signal_copy_from fuel w0 this (StdList.begin l).

(** [_signal::disconnect_all()] *)
Fixpoint signal_disconnect_all_loop (w : world) (this : ptr) (slots : list ptr)
    : outcome world :=
  match slots with
  | [] => Ok w
  | slot :: rest =>
      d ←← getdest w slot;
      w1 ←← signal_disconnect w d this;
      w2 ←← delete_connection w1 slot;
      signal_disconnect_all_loop w2 this rest
  end.

Definition signal_disconnect_all (w : world) (this : ptr) : outcome world :=
  l ←← m_connected_slots w this;
  w1 ←← signal_disconnect_all_loop w this (StdList.values l);
  l1 ←← m_connected_slots w1 this;
  Ok (set_connected_slots w1 this (StdList.clear l1)).

(** [_signal::~_signal()] *)
Definition signal_destroy (w : world) (this : ptr) : outcome world :=
  w1 ←← signal_disconnect_all w this;
  Ok (set_signals w1 (delete this (signals w1))).

(** [_signal::disconnect(pclass)]: the loop ends at the first match. *)
Fixpoint disconnect_loop (w : world) (this pclass : ptr) (slots : list ptr)
    : outcome world :=
  match slots with
  | [] => Ok w
  | slot :: rest =>
      d ←← getdest w slot;
      if decide (d = pclass) then
        w1 ←← delete_connection w slot;
        l ←← m_connected_slots w1 this;
        let w2 := set_connected_slots w1 this (StdList.remove l slot) in
        signal_disconnect w2 pclass this
      else disconnect_loop w this pclass rest
  end.

Definition disconnect (w : world) (this pclass : ptr) : outcome world :=
  l ←← m_connected_slots w this;
  disconnect_loop w this pclass (StdList.values l).

(** [_signal::slot_disconnect(pslot)], from iterator [it] on. *)
Fixpoint slot_disconnect_from (fuel : nat) (w : world) (this pslot : ptr)
    (it : StdList.iterator) : outcome world :=
  match fuel with
  | 0 => OutOfFuel
  | S fuel' =>
      match it with
      | StdList.End => Ok w
      | StdList.At _ =>
          l ←← m_connected_slots w this;
          slot ←← StdList.get l it;
          d ←← getdest w slot;
          w1 ←← (if decide (d = pslot) then
                   w' ←← delete_connection w slot;
                   l' ←← StdList.erase l it;
                   Ok (set_connected_slots w' this l')
                 else Ok w);
          l1 ←← m_connected_slots w1 this;
          it' ←← StdList.incr l1 it;
          slot_disconnect_from fuel' w1 this pslot it'
      end
  end.

Definition slot_disconnect (fuel : nat) (w : world) (this pslot : ptr) : outcome world :=
  l ←← m_connected_slots w this;
  slot_disconnect_from fuel w this pslot (StdList.begin l).

(** ** [has_slots]: copy, [disconnect_all], destruction *)

(** [has_slots::has_slots(const has_slots& hs)], constructing at [this]:
    for every sender of [hs], [slot_duplicate] and then
    [m_senders.insert(sender)]. *)
Fixpoint has_slots_copy_loop (fuel : nat) (w : world) (this hs : ptr) (senders : list ptr)
    : outcome world :=
  match senders with
  | [] => Ok w
  | sender :: rest =>
      w1 ←← slot_duplicate fuel w sender hs this;
      w2 ←← signal_connect w1 this sender;
      has_slots_copy_loop fuel w2 this hs rest
  end.

Definition has_slots_copy (fuel : nat) (w : world) (this hs : ptr) : outcome world :=
  ms ←← deref (receivers w !! hs);
  has_slots_copy_loop fuel (has_slots_new w this) this hs (elements ms).

(** [has_slots::disconnect_all()] *)
Fixpoint has_slots_disconnect_all_loop (fuel : nat) (w : world) (this : ptr)
    (senders : list ptr) : outcome world :=
  match senders with
  | [] => Ok w
  | sender :: rest =>
      w1 ←← slot_disconnect fuel w sender this;
      has_slots_disconnect_all_loop fuel w1 this rest
  end.

Definition has_slots_disconnect_all (fuel : nat) (w : world) (this : ptr) : outcome world :=
  ms ←← deref (receivers w !! this);
  w1 ←← has_slots_disconnect_all_loop fuel w this (elements ms);
  _ ←← deref (receivers w1 !! this);
  Ok (set_receivers w1 (<[this := ∅]> (receivers w1))).

(** [has_slots::~has_slots()] *)
Definition has_slots_destroy (fuel : nat) (w : world) (this : ptr) : outcome world :=
  w1 ←← has_slots_disconnect_all fuel w this;
  Ok (set_receivers w1 (delete this (receivers w1))).

(** ** Observations *)

(** The connections of a signal, in sequence order. *)
Definition connections (w : world) (s : ptr) : list connection :=
  match signals w !! s with
  | Some l => omap (λ p, conns w !! p) (StdList.values l)
  | None => []
  end.

(** The sender set of a receiver. *)
Definition senders (w : world) (r : ptr) : gset ptr :=
  default ∅ (receivers w !! r).

(** The invocation a connection makes when its signal is emitted. *)
Definition invoke {Args : Type} (args : Args) (c : connection) : call Args :=
  Call (m_pobject c) (m_pmemfun c) args.

(** The connection [duplicate] builds: same handler, new target. *)
Definition retarget (r : ptr) (c : connection) : connection :=
  Connection r (m_pmemfun c).

(** [getdest() == r] *)
Definition targets (r : ptr) (c : connection) : Prop := m_pobject c = r.

Global Instance targets_dec r c : Decision (targets r c).
Proof. unfold targets. apply _. Defined.

(** A sequence without its first element that satisfies [P]. *)
Fixpoint remove_first {A : Type} (P : A → Prop) `{∀ x, Decision (P x)} (l : list A)
    : list A :=
  match l with
  | [] => []
  | x :: rest => if decide (P x) then rest else x :: remove_first P rest
  end.

(** Several [connect] calls on one signal, in order. *)
Fixpoint connect_all (w : world) (this : ptr) (hs : list (ptr * memfun)) : outcome world :=
  match hs with
  | [] => Ok w
  | rh :: rest =>
      w1 ←← connect w this rh.1 rh.2;
      connect_all w1 this rest
  end.

(** ** Well-formed heaps *)

(** The list of a signal: distinct nodes, and distinct pointers to live
    connection objects. *)
Definition signal_ok (w : world) (l : StdList.t ptr) : Prop :=
  StdList.wf l ∧ NoDup (StdList.values l) ∧
  Forall (λ p, is_Some (conns w !! p)) (StdList.values l).

(** Every live connection object lies below the allocation frontier, and
    every live signal has a well-formed list. *)
Definition wf_world (w : world) : Prop :=
  map_Forall (λ p _, p < brk w) (conns w) ∧
  map_Forall (λ _ l, signal_ok w l) (signals w).

Global Instance StdList_wf_dec {A : Type} (l : StdList.t A) : Decision (StdList.wf l).
Proof. unfold StdList.wf. apply _. Defined.

Global Instance signal_ok_dec w l : Decision (signal_ok w l).
Proof. unfold signal_ok. apply _. Defined.

Global Instance wf_world_dec w : Decision (wf_world w).
Proof. unfold wf_world. apply _. Defined.

(** Every connection of signal [s] targets a live receiver. *)
Definition targets_live (w : world) (s : ptr) : Prop :=
  Forall (λ c, is_Some (receivers w !! m_pobject c)) (connections w s).

Global Instance targets_live_dec w s : Decision (targets_live w s).
Proof. unfold targets_live. apply _. Defined.

(** The two directions of the registration invariant between the sender
    sets and the connection lists. *)
Definition senders_have_connection (w : world) : Prop :=
  ∀ s r, s ∈ senders w r → ∃ c, c ∈ connections w s ∧ targets r c.

Definition connections_are_registered (w : world) : Prop :=
  ∀ s c, c ∈ connections w s → s ∈ senders w (m_pobject c).

Definition consistent (w : world) : Prop :=
  senders_have_connection w ∧ connections_are_registered w.

(** The same invariant, read over the live receivers and the live
    signals only. *)
Definition consistent_check (w : world) : Prop :=
  map_Forall (λ r ms, set_Forall (λ s, Exists (targets r) (connections w s)) ms)
             (receivers w) ∧
  map_Forall (λ s _, Forall (λ c, s ∈ senders w (m_pobject c)) (connections w s))
             (signals w).

Global Instance consistent_check_dec w : Decision (consistent_check w).
Proof. unfold consistent_check. apply _. Defined.

(** The heap after [new] of connection [c] and [push_back] of the new
    pointer on the list [l] of signal [this]. *)
Definition alloc_push (w : world) (this : ptr) (l : StdList.t ptr) (c : connection) : world :=
  World (<[brk w := c]> (conns w))
        (<[this := StdList.push_back l (brk w)]> (signals w))
        (receivers w) (S (brk w)).

(** ** Some heaps

    Signals live at address 10 and 11, receivers at 20, 21, 22 and 30;
    handlers are numbered. *)

(** A new signal 10 and a new receiver 20. *)
Definition w_fresh : world := has_slots_new (signal_new empty_world 10) 20.

(** After [connect] of signal 10 to receiver 20 with handler 1. *)
Definition w_one : world :=
  World {[ 0 := Connection 20 1 ]}
        {[ 10 := StdList.Mk [(0, 0)] 1 ]}
        {[ 20 := {[ 10 ]} ]}
        1.

(** After a further [connect] to receiver 20, with handler 2. *)
Definition w_two : world :=
  World {[ 0 := Connection 20 1; 1 := Connection 20 2 ]}
        {[ 10 := StdList.Mk [(0, 0); (1, 1)] 2 ]}
        {[ 20 := {[ 10 ]} ]}
        2.

(** After [disconnect] of receiver 20 from signal 10 in [w_two]. *)
Definition w_left : world :=
  World {[ 1 := Connection 20 2 ]}
        {[ 10 := StdList.Mk [(1, 1)] 2 ]}
        {[ 20 := ∅ ]}
        2.

(** After [disconnect] of receiver 20 from signal 10 in [w_one]. *)
Definition w_none : world :=
  World ∅ {[ 10 := StdList.Mk [] 1 ]} {[ 20 := ∅ ]} 1.

(** After [disconnect_all] on signal 10 in [w_two]. *)
Definition w_cleared : world :=
  World ∅ {[ 10 := StdList.Mk [] 2 ]} {[ 20 := ∅ ]} 2.

(** A new signal 10 and new receivers 20, 30 and 21. *)
Definition w_three_receivers : world :=
  has_slots_new (has_slots_new (has_slots_new (signal_new empty_world 10) 20) 30) 21.

(** Signal 10 connected to receiver 20 (handler 1), receiver 30
    (handler 5) and receiver 20 again (handler 2); receiver 21 has no
    sender. *)
Definition w_two_handlers : world :=
  World {[ 0 := Connection 20 1; 1 := Connection 30 5; 2 := Connection 20 2 ]}
        {[ 10 := StdList.Mk [(0, 0); (1, 1); (2, 2)] 3 ]}
        {[ 20 := {[ 10 ]}; 30 := {[ 10 ]}; 21 := ∅ ]}
        3.

(** The same, after receiver 21 has registered signal 10 itself
    ([signal_connect] is public), without any connection to it. *)
Definition w_registered_only : world :=
  World {[ 0 := Connection 20 1; 1 := Connection 30 5; 2 := Connection 20 2 ]}
        {[ 10 := StdList.Mk [(0, 0); (1, 1); (2, 2)] 3 ]}
        {[ 20 := {[ 10 ]}; 30 := {[ 10 ]}; 21 := {[ 10 ]} ]}
        3.

(** ** Ownership

    A connection object belongs to the one signal whose list holds its
    pointer. *)

(** The connection pointers in the list of signal [s]. *)
Definition slots_of (w : world) (s : ptr) : list ptr :=
  match signals w !! s with
  | Some l => StdList.values l
  | None => []
  end.

(** No other signal holds a pointer to a connection object of [this]. *)
Definition owns_exclusively (w : world) (this : ptr) : Prop :=
  map_Forall (λ s l, s = this ∨ Forall (λ p, p ∉ slots_of w this) (StdList.values l))
             (signals w).

Global Instance owns_exclusively_dec w this : Decision (owns_exclusively w this).
Proof. unfold owns_exclusively. apply _. Defined.

(** Every live signal owns its connection objects exclusively. *)
Definition exclusive (w : world) : Prop :=
  map_Forall (λ s _, owns_exclusively w s) (signals w).

Global Instance exclusive_dec w : Decision (exclusive w).
Proof. unfold exclusive. apply _. Defined.

(** Signals 10 and 11 and receivers 20 and 30: signal 10 is connected to
    receiver 20 (handler 1), receiver 30 (handler 5) and receiver 20
    again (handler 2); signal 11 is connected to receiver 20
    (handler 3). *)
Definition w_two_signals : world :=
  World {[ 0 := Connection 20 1; 1 := Connection 30 5; 2 := Connection 20 2;
           3 := Connection 20 3 ]}
        {[ 10 := StdList.Mk [(0, 0); (1, 1); (2, 2)] 3;
           11 := StdList.Mk [(0, 3)] 1 ]}
        {[ 20 := {[ 10; 11 ]}; 30 := {[ 10 ]} ]}
        4.

(** Signal 10 still holds a connection to receiver 20, which has been
    destroyed. *)
Definition w_dangling : world :=
  World {[ 1 := Connection 20 2 ]}
        {[ 10 := StdList.Mk [(1, 1)] 2 ]}
        ∅
        2.

(** ** Heaps in order, and the heaps the library reaches *)

(** Well formed, every connection object owned by one signal, and the
    sender sets in agreement with the connection lists. *)
Definition in_order (w : world) : Prop :=
  wf_world w ∧ exclusive w ∧ consistent w.

(** The heaps reached from the empty one by constructing signals and
    receivers in fresh storage (also by copy), by [connect], by both
    [disconnect_all], by both destructors, and by [disconnect] where the
    signal holds at most one connection to the receiver.  A step is a
    call that returns. *)
Inductive reachable : world → Prop :=
  | reach_empty :
      reachable empty_world
  | reach_signal_new w this :
      reachable w → signals w !! this = None →
      reachable (signal_new w this)
  | reach_has_slots_new w this :
      reachable w → receivers w !! this = None →
      reachable (has_slots_new w this)
  | reach_signal_copy fuel w this s w' :
      reachable w → signals w !! this = None →
      signal_copy fuel w this s = Ok w' →
      reachable w'
  | reach_has_slots_copy fuel w this hs w' :
      reachable w → receivers w !! this = None →
      has_slots_copy fuel w this hs = Ok w' →
      reachable w'
  | reach_connect w this pclass pmemfun w' :
      reachable w →
      connect w this pclass pmemfun = Ok w' →
      reachable w'
  | reach_disconnect w this pclass w' :
      reachable w →
      length (filter (targets pclass) (connections w this)) ≤ 1 →
      disconnect w this pclass = Ok w' →
      reachable w'
  | reach_signal_disconnect_all w this w' :
      reachable w →
      signal_disconnect_all w this = Ok w' →
      reachable w'
  | reach_signal_destroy w this w' :
      reachable w →
      signal_destroy w this = Ok w' →
      reachable w'
  | reach_has_slots_disconnect_all fuel w this w' :
      reachable w →
      has_slots_disconnect_all fuel w this = Ok w' →
      reachable w'
  | reach_has_slots_destroy fuel w this w' :
      reachable w →
      has_slots_destroy fuel w this = Ok w' →
      reachable w'.

(** * Properties *)

(** Closing a decidable statement about a concrete heap. *)
Ltac decide_by_computation :=
  apply (bool_decide_unpack _); vm_compute; exact I.

(** ** Outcomes and lists *)

Lemma obind_Ok {A B : Type} (m : outcome A) (k : A → outcome B) (b : B) :
  obind m k = Ok b ↔ ∃ a, m = Ok a ∧ k a = Ok b.
Proof.
  split.
  - destruct m as [a| |]; simpl; [eauto | discriminate | discriminate].
  - intros (a & -> & Hk). exact Hk.
Qed.

Lemma value_at_middle {A : Type} (pre post : list (StdList.node * A)) n x :
  n ∉ pre.*1 → StdList.value_at n (pre ++ (n, x) :: post) = Some x.
Proof.
  induction pre as [|[m y] pre IH]; simpl; intros Hn.
  - by rewrite Nat.eqb_refl.
  - rewrite not_elem_of_cons in Hn. destruct Hn as [Hne Hn].
    destruct (Nat.eqb_spec n m); [done | auto].
Qed.

Lemma after_middle {A : Type} (pre post : list (StdList.node * A)) n x :
  n ∉ pre.*1 → StdList.after n (pre ++ (n, x) :: post) = Some (StdList.first_of post).
Proof.
  induction pre as [|[m y] pre IH]; simpl; intros Hn.
  - by rewrite Nat.eqb_refl.
  - rewrite not_elem_of_cons in Hn. destruct Hn as [Hne Hn].
    destruct (Nat.eqb_spec n m); [done | auto].
Qed.

Lemma after_None {A : Type} (cs : list (StdList.node * A)) n :
  n ∉ cs.*1 → StdList.after n cs = None.
Proof.
  induction cs as [|[m y] cs IH]; simpl; intros Hn; [done |].
  rewrite not_elem_of_cons in Hn. destruct Hn as [Hne Hn].
  destruct (Nat.eqb_spec n m); [done | auto].
Qed.

Lemma NoDup_middle_notin {A : Type} (pre post : list (StdList.node * A)) n x :
  NoDup (pre ++ (n, x) :: post).*1 → (n ∉ pre.*1) ∧ (n ∉ post.*1).
Proof.
  rewrite fmap_app, fmap_cons. simpl. intros Hnd.
  apply NoDup_app in Hnd as (_ & Hpre & Hpost).
  apply NoDup_cons in Hpost as [Hn _]. split; [|done].
  intros Hin. apply (Hpre _ Hin). left.
Qed.

(** Resolving pointers through two heaps that agree on them. *)
Lemma omap_lookup_agree (m1 m2 : gmap ptr connection) (ps : list ptr) :
  Forall (λ p, m1 !! p = m2 !! p) ps →
  omap (λ p, m1 !! p) ps = omap (λ p, m2 !! p) ps.
Proof.
  induction 1 as [|p ps Hp _ IH]; csimpl; [done |]. by rewrite Hp, IH.
Qed.

Lemma omap_lookup_live_length (m : gmap ptr connection) (ps : list ptr) :
  Forall (λ p, is_Some (m !! p)) ps → length (omap (λ p, m !! p) ps) = length ps.
Proof.
  induction 1 as [|p ps [c Hc] _ IH]; csimpl; [done |]. rewrite Hc. simpl. by rewrite IH.
Qed.

(** ** Reading the heap *)

Lemma connections_lookup w s l :
  signals w !! s = Some l →
  connections w s = omap (λ p, conns w !! p) (StdList.values l).
Proof. intros H. unfold connections. by rewrite H. Qed.

Lemma wf_world_signal w s l :
  wf_world w → signals w !! s = Some l → signal_ok w l.
Proof. intros [_ Hs] Hl. exact (Hs s l Hl). Qed.

Lemma wf_world_below w p :
  wf_world w → is_Some (conns w !! p) → p < brk w.
Proof. intros [Hc _] [c Hp]. exact (Hc p c Hp). Qed.

(** ** [emit] *)

Lemma emit_loop_spec {Args : Type} w (slots : list ptr) (args : Args) :
  Forall (λ p, is_Some (conns w !! p)) slots →
  Forall (λ c, is_Some (receivers w !! m_pobject c)) (omap (λ p, conns w !! p) slots) →
  emit_loop w slots args = Ok (invoke args <$> omap (λ p, conns w !! p) slots).
Proof.
  induction 1 as [|p ps [c Hc] _ IH]; csimpl; [done |].
  rewrite Hc. simpl. intros Hlive. apply Forall_cons in Hlive as [[ms Hms] Hlive].
  unfold connection_emit. rewrite Hc. simpl. rewrite Hms. simpl.
  rewrite (IH Hlive). done.
Qed.

Lemma emit_spec {Args : Type} w this l (args : Args) :
  signals w !! this = Some l → signal_ok w l → targets_live w this →
  emit w this args = Ok (invoke args <$> connections w this).
Proof.
  intros Hl (_ & _ & Hlive) Ht. unfold emit, m_connected_slots. rewrite Hl. simpl.
  unfold targets_live in Ht. rewrite (connections_lookup _ _ _ Hl) in Ht |- *.
  by apply emit_loop_spec.
Qed.

(** ** Allocation and [push_back] keep the heap well formed *)

Lemma signal_ok_insert_conn w l c rs b :
  signal_ok w l → signal_ok (World (<[brk w := c]> (conns w)) (signals w) rs b) l.
Proof.
  intros (Hwf & Hnd & Hlive). split_and!; [done | done |].
  eapply Forall_impl; [exact Hlive |]. simpl. intros p Hp.
  apply lookup_insert_is_Some. destruct (decide (brk w = p)); auto.
Qed.

Lemma signal_ok_irrel w w' l :
  conns w' = conns w → signal_ok w l → signal_ok w' l.
Proof. unfold signal_ok. by intros ->. Qed.

Lemma push_back_ok w l c :
  wf_world w → signal_ok w l →
  signal_ok (World (<[brk w := c]> (conns w)) (signals w) (receivers w) (S (brk w)))
            (StdList.push_back l (brk w)).
Proof.
  intros Hw (Hwf & Hnd & Hlive). destruct Hwf as [Hnodes Hlt].
  assert (Hnew : brk w ∉ StdList.values l).
  { intros Hin. rewrite Forall_forall in Hlive.
    pose proof (wf_world_below _ _ Hw (Hlive _ Hin)). lia. }
  split_and!.
  - split; simpl; rewrite fmap_app; simpl.
    + apply NoDup_app. split_and!; [done | | apply NoDup_singleton].
      intros n Hn Hn'. apply list_elem_of_singleton in Hn'. subst n.
      rewrite Forall_forall in Hlt. specialize (Hlt _ Hn). lia.
    + apply Forall_app. split.
      * eapply Forall_impl; [exact Hlt |]. simpl. lia.
      * apply Forall_singleton. lia.
  - unfold StdList.values, StdList.push_back. simpl. rewrite fmap_app. simpl.
    apply NoDup_app. split_and!; [done | | apply NoDup_singleton].
    intros p Hp Hp'. apply list_elem_of_singleton in Hp'. by subst p.
  - unfold StdList.values, StdList.push_back. simpl. rewrite fmap_app. simpl.
    apply Forall_app. split.
    + eapply Forall_impl; [exact Hlive |]. simpl. intros p Hp.
      apply lookup_insert_is_Some. destruct (decide (brk w = p)); auto.
    + apply Forall_singleton. rewrite lookup_insert_eq. eauto.
Qed.

Lemma wf_world_alloc_push w this l c :
  wf_world w → signals w !! this = Some l → wf_world (alloc_push w this l c).
Proof.
  intros Hw Hl. pose proof Hw as [Hc Hs]. split; simpl.
  - apply map_Forall_insert_2; [lia |].
    eapply map_Forall_impl; [exact Hc |]. simpl. lia.
  - apply map_Forall_insert_2.
    + eapply signal_ok_irrel; [| apply (push_back_ok w l c Hw (Hs _ _ Hl))]. done.
    + eapply map_Forall_impl; [exact Hs |]. simpl. intros s l' Hl'.
      eapply signal_ok_irrel; [| apply (signal_ok_insert_conn w l' c (receivers w) (S (brk w)) Hl')].
      done.
Qed.

Lemma resolve_alloc w c (ps : list ptr) :
  wf_world w → Forall (λ p, is_Some (conns w !! p)) ps →
  omap (λ p, <[brk w := c]> (conns w) !! p) ps = omap (λ p, conns w !! p) ps.
Proof.
  intros Hw Hlive. apply omap_lookup_agree.
  eapply Forall_impl; [exact Hlive |]. simpl. intros p Hp.
  apply lookup_insert_ne. pose proof (wf_world_below _ _ Hw Hp). lia.
Qed.

Lemma connections_alloc_push_this w this l c :
  wf_world w → signals w !! this = Some l →
  connections (alloc_push w this l c) this = connections w this ++ [c].
Proof.
  intros Hw Hl. destruct (wf_world_signal _ _ _ Hw Hl) as (_ & _ & Hlive).
  unfold connections. simpl. rewrite lookup_insert_eq, Hl.
  unfold StdList.values, StdList.push_back. simpl. rewrite fmap_app, omap_app.
  fold (StdList.values l). rewrite (resolve_alloc w c _ Hw Hlive).
  csimpl. by rewrite lookup_insert_eq.
Qed.

Lemma connections_alloc_push_other w this l c s :
  wf_world w → s ≠ this →
  connections (alloc_push w this l c) s = connections w s.
Proof.
  intros Hw Hne. unfold connections. simpl. rewrite lookup_insert_ne by done.
  destruct (signals w !! s) as [l'|] eqn:Hl'; [|done].
  destruct (wf_world_signal _ _ _ Hw Hl') as (_ & _ & Hlive).
  by apply resolve_alloc.
Qed.

Lemma wf_world_set_receivers w rs : wf_world w → wf_world (set_receivers w rs).
Proof.
  intros [Hc Hs]. split; simpl; [done |].
  eapply map_Forall_impl; [exact Hs |]. simpl. intros s l Hl.
  by eapply signal_ok_irrel; [| exact Hl].
Qed.

Lemma connections_set_receivers w rs s :
  connections (set_receivers w rs) s = connections w s.
Proof. done. Qed.

(** ** [connect] *)

Lemma connect_spec w this pclass pmemfun l ms :
  signals w !! this = Some l → receivers w !! pclass = Some ms →
  connect w this pclass pmemfun =
    Ok (set_receivers (alloc_push w this l (Connection pclass pmemfun))
          (<[pclass := {[this]} ∪ ms]> (receivers w))).
Proof.
  intros Hl Hms. unfold connect, m_connected_slots, push_back_slot, m_connected_slots.
  simpl. rewrite Hl. simpl. unfold signal_connect. simpl. rewrite Hms. done.
Qed.

Lemma connect_all_spec w this (hs : list (ptr * memfun)) :
  wf_world w → is_Some (signals w !! this) → targets_live w this →
  Forall (λ rh, is_Some (receivers w !! rh.1)) hs →
  ∃ w', connect_all w this hs = Ok w' ∧ wf_world w' ∧
        is_Some (signals w' !! this) ∧ targets_live w' this ∧
        connections w' this =
          connections w this ++ ((λ rh, Connection rh.1 rh.2) <$> hs).
Proof.
  revert w. induction hs as [|[r h] hs IH]; intros w Hw [l Hl] Ht Hrs; simpl.
  - exists w. rewrite app_nil_r. eauto.
  - apply Forall_cons in Hrs as [[ms Hms] Hrs].
    simpl in Hms. rewrite (connect_spec w this r h l ms Hl Hms). simpl.
    set (w1 := set_receivers (alloc_push w this l (Connection r h))
                 (<[r := {[this]} ∪ ms]> (receivers w))).
    assert (Hw1 : wf_world w1).
    { apply wf_world_set_receivers. by apply wf_world_alloc_push. }
    assert (Hc1 : connections w1 this = connections w this ++ [Connection r h]).
    { unfold w1. rewrite connections_set_receivers.
      by apply connections_alloc_push_this. }
    assert (Hkeep : ∀ r', is_Some (receivers w !! r') → is_Some (receivers w1 !! r')).
    { intros r' Hr'. simpl. apply lookup_insert_is_Some.
      destruct (decide (r = r')); auto. }
    destruct (IH w1) as (w' & Hrun & Hw' & Hsig' & Ht' & Hc').
    + exact Hw1.
    + simpl. rewrite lookup_insert_eq. eauto.
    + unfold targets_live. rewrite Hc1. apply Forall_app. split.
      * eapply Forall_impl; [exact Ht |]. simpl. auto.
      * apply Forall_singleton. simpl. rewrite lookup_insert_eq. eauto.
    + eapply Forall_impl; [exact Hrs |]. simpl. auto.
    + exists w'. split_and!; try done.
      rewrite Hc', Hc1, <- app_assoc. done.
Qed.

(** C7. [emit(args...)] invokes the handler of every connection of the
    signal with [args], once per connection and in sequence order; and
    after any series of [connect] calls the new connections are invoked
    after the earlier ones, in connection order, one invocation per
    [connect] call (also when a (receiver, handler) pair repeats).  With
    no connection nothing is invoked. *)
Theorem emit_invokes_connections_in_order {Args : Type} w this
    (hs : list (ptr * memfun)) (args : Args) :
  wf_world w → is_Some (signals w !! this) → targets_live w this →
  Forall (λ rh, is_Some (receivers w !! rh.1)) hs →
  emit w this args = Ok (invoke args <$> connections w this) ∧
  ∃ w', connect_all w this hs = Ok w' ∧
        connections w' this =
          connections w this ++ ((λ rh, Connection rh.1 rh.2) <$> hs) ∧
        emit w' this args =
          Ok ((invoke args <$> connections w this) ++
              ((λ rh, Call rh.1 rh.2 args) <$> hs)).
Proof.
  intros Hw Hsig Ht Hrs. split.
  - destruct Hsig as [l Hl]. eapply emit_spec; eauto using wf_world_signal.
  - destruct (connect_all_spec w this hs Hw Hsig Ht Hrs)
      as (w' & Hrun & Hw' & [l' Hl'] & Ht' & Hc').
    exists w'. split_and!; [done | done |].
    rewrite (emit_spec w' this l' args Hl' (wf_world_signal _ _ _ Hw' Hl') Ht').
    rewrite Hc', fmap_app, <- list_fmap_compose. done.
Qed.

(** On a new signal: three [connect] calls, one pair twice, then [emit];
    and [emit] before any [connect]. *)
Lemma emit_witness :
  ∃ w', connect_all w_fresh 10 [(20, 1); (20, 2); (20, 1)] = Ok w' ∧
        emit w' 10 7 = Ok [Call 20 1 7; Call 20 2 7; Call 20 1 7] ∧
        emit w_fresh 10 7 = Ok [].
Proof.
  destruct (emit_invokes_connections_in_order w_fresh 10 [(20, 1); (20, 2); (20, 1)] 7)
    as (He & w' & Hrun & _ & Hemit).
  - decide_by_computation.
  - vm_compute. eauto.
  - decide_by_computation.
  - decide_by_computation.
  - exists w'. split_and!; [exact Hrun | exact Hemit | exact He].
Defined.

(** ** [operator()] *)

(** C9. Invoking a signal through its call operator is the same as
    calling [emit] with the same arguments: the same invocations, in
    every heap and for every argument. *)
Theorem call_operator_is_emit {Args : Type} (w : world) (this : ptr) (args : Args) :
  call_operator w this args = emit w this args.
Proof. reflexivity. Qed.

(** ** [slot_duplicate] *)

(** One turn of the loop, at a valid iterator. *)
Lemma slot_duplicate_from_step fuel w this oldtarget newtarget l pre n p post c :
  signals w !! this = Some l →
  StdList.cells l = pre ++ (n, p) :: post → n ∉ pre.*1 →
  conns w !! p = Some c →
  slot_duplicate_from (S fuel) w this oldtarget newtarget (StdList.At n) =
    if decide (targets oldtarget c) then
      slot_duplicate_from fuel (alloc_push w this l (retarget newtarget c))
        this oldtarget newtarget
        (StdList.first_of (post ++ [(StdList.fresh l, brk w)]))
    else
      slot_duplicate_from fuel w this oldtarget newtarget (StdList.first_of post).
Proof.
  intros Hl Hcells Hn Hc. simpl. unfold m_connected_slots at 1. rewrite Hl. simpl.
  rewrite Hcells, (value_at_middle pre post n p Hn). simpl.
  unfold getdest. rewrite Hc. simpl. unfold targets.
  destruct (decide (m_pobject c = oldtarget)) as [Heq|Hne]; simpl.
  - unfold duplicate. rewrite Hc. simpl.
    unfold push_back_slot, m_connected_slots. simpl. rewrite Hl. simpl.
    rewrite lookup_insert_eq. simpl. rewrite Hcells, <- app_assoc. simpl.
    rewrite (after_middle pre (post ++ [(StdList.fresh l, brk w)]) n p Hn). done.
  - unfold m_connected_slots. rewrite Hl. simpl.
    rewrite Hcells, (after_middle pre post n p Hn). done.
Qed.

Lemma filter_targets_retarget oldtarget newtarget c :
  oldtarget ≠ newtarget → filter (targets oldtarget) [retarget newtarget c] = [].
Proof.
  intros Hne. rewrite filter_cons_False; [done |].
  unfold targets, retarget. simpl. congruence.
Qed.

(** The loop from a position of the list: [pre] is behind the iterator,
    [rest] ahead of it.  It ends, having appended one duplicate per
    connection of [rest] that targets [oldtarget]. *)
Lemma slot_duplicate_from_spec m :
  ∀ fuel w this oldtarget newtarget pre rest f,
    oldtarget ≠ newtarget → wf_world w →
    signals w !! this = Some (StdList.Mk (pre ++ rest) f) →
    length rest +
      length (filter (targets oldtarget) (omap (λ p, conns w !! p) rest.*2)) ≤ m →
    m < fuel →
    ∃ w' news f',
      slot_duplicate_from fuel w this oldtarget newtarget (StdList.first_of rest) = Ok w' ∧
      wf_world w' ∧
      signals w' !! this = Some (StdList.Mk (pre ++ rest ++ news) f') ∧
      (∀ s, s ≠ this → signals w' !! s = signals w !! s) ∧
      receivers w' = receivers w ∧
      (∀ q, is_Some (conns w !! q) → conns w' !! q = conns w !! q) ∧
      omap (λ p, conns w' !! p) news.*2 =
        retarget newtarget <$>
          filter (targets oldtarget) (omap (λ p, conns w !! p) rest.*2).
Proof.
  induction m as [|m IH];
    intros fuel w this oldtarget newtarget pre rest f Hne Hw Hl Hm Hfuel.
  { destruct rest; simpl in Hm; [|lia]. destruct fuel; [lia |].
    exists w, [], f. rewrite app_nil_r in Hl |- *. split_and!; done. }
  destruct rest as [|[n p] rest].
  { destruct fuel; [lia |].
    exists w, [], f. rewrite app_nil_r in Hl |- *. split_and!; done. }
  destruct fuel as [|fuel]; [lia |].
  pose proof (wf_world_signal _ _ _ Hw Hl) as ([Hnodes Hlt] & Hnd & Hlive).
  simpl in Hnodes, Hlt. unfold StdList.values in Hnd, Hlive. simpl in Hnd, Hlive.
  destruct (NoDup_middle_notin pre rest n p Hnodes) as [Hnpre Hnpost].
  rewrite fmap_app, fmap_cons in Hlive. simpl in Hlive.
  apply Forall_app in Hlive as [Hlive_pre Hlive_rest].
  apply Forall_cons in Hlive_rest as [[c Hc] Hlive_rest].
  simpl StdList.first_of.
  rewrite (slot_duplicate_from_step fuel w this oldtarget newtarget _ pre n p rest c
             Hl eq_refl Hnpre Hc).
  csimpl in Hm. rewrite Hc in Hm. simpl StdList.fresh.
  destruct (decide (targets oldtarget c)) as [Ht|Ht].
  - rewrite filter_cons_True in Hm by done. simpl in Hm.
    set (w1 := alloc_push w this (StdList.Mk (pre ++ (n, p) :: rest) f)
                 (retarget newtarget c)).
    assert (Hres : omap (λ q, conns w1 !! q) (rest ++ [(f, brk w)]).*2 =
                   omap (λ q, conns w !! q) rest.*2 ++ [retarget newtarget c]).
    { rewrite fmap_app, omap_app. simpl conns.
      rewrite (resolve_alloc w _ _ Hw Hlive_rest). csimpl.
      by rewrite lookup_insert_eq. }
    destruct (IH fuel w1 this oldtarget newtarget (pre ++ [(n, p)])
                (rest ++ [(f, brk w)]) (S f))
      as (w' & news & f' & Hrun & Hw' & Hl' & Hothers & Hrcv & Hkeep & Hnews).
    + done.
    + by apply wf_world_alloc_push.
    + simpl. rewrite lookup_insert_eq. unfold StdList.push_back. simpl.
      by rewrite <- !app_assoc.
    + rewrite Hres, filter_app, (filter_targets_retarget _ _ _ Hne), app_nil_r.
      rewrite length_app. simpl. lia.
    + lia.
    + exists w', ((f, brk w) :: news), f'. split_and!.
      * exact Hrun.
      * exact Hw'.
      * rewrite Hl'. by rewrite <- !app_assoc.
      * intros s Hs. rewrite (Hothers s Hs). simpl. by rewrite lookup_insert_ne.
      * by rewrite Hrcv.
      * intros q Hq. rewrite Hkeep.
        -- simpl. apply lookup_insert_ne.
           pose proof (wf_world_below _ _ Hw Hq). lia.
        -- simpl. apply lookup_insert_is_Some. destruct (decide (brk w = q)); auto.
      * csimpl. rewrite Hkeep by (simpl; rewrite lookup_insert_eq; eauto).
        simpl conns. rewrite lookup_insert_eq. rewrite Hc.
        rewrite filter_cons_True by done. rewrite fmap_cons. f_equal.
        rewrite Hnews, Hres, filter_app, (filter_targets_retarget _ _ _ Hne), app_nil_r.
        done.
  - rewrite filter_cons_False in Hm by done. simpl in Hm.
    destruct (IH fuel w this oldtarget newtarget (pre ++ [(n, p)]) rest f)
      as (w' & news & f' & Hrun & Hw' & Hl' & Hothers & Hrcv & Hkeep & Hnews).
    + done.
    + done.
    + by rewrite <- app_assoc.
    + lia.
    + lia.
    + exists w', news, f'. split_and!; try done.
      * rewrite Hl'. by rewrite <- !app_assoc.
      * csimpl. rewrite Hc. by rewrite filter_cons_False.
Qed.

Lemma slot_duplicate_spec fuel w this oldtarget newtarget :
  oldtarget ≠ newtarget → wf_world w → is_Some (signals w !! this) →
  length (connections w this) +
    length (filter (targets oldtarget) (connections w this)) < fuel →
  ∃ w', slot_duplicate fuel w this oldtarget newtarget = Ok w' ∧
        wf_world w' ∧ is_Some (signals w' !! this) ∧
        connections w' this =
          connections w this ++
          (retarget newtarget <$> filter (targets oldtarget) (connections w this)) ∧
        (∀ s, s ≠ this → signals w' !! s = signals w !! s) ∧
        (∀ s, s ≠ this → connections w' s = connections w s) ∧
        receivers w' = receivers w.
Proof.
  intros Hne Hw [[cells f] Hl] Hfuel.
  pose proof (wf_world_signal _ _ _ Hw Hl) as (_ & _ & Hlive).
  rewrite (connections_lookup _ _ _ Hl) in Hfuel |- *.
  unfold StdList.values in Hfuel, Hlive |- *. simpl in Hfuel, Hlive |- *.
  rewrite (omap_lookup_live_length _ _ Hlive) in Hfuel. rewrite length_fmap in Hfuel.
  destruct (slot_duplicate_from_spec
              (length cells +
               length (filter (targets oldtarget) (omap (λ p, conns w !! p) cells.*2)))
              fuel w this oldtarget newtarget [] cells f)
    as (w' & news & f' & Hrun & Hw' & Hl' & Hothers & Hrcv & Hkeep & Hnews);
    [done | done | done | done | lia |].
  exists w'. split_and!.
  - unfold slot_duplicate, m_connected_slots. rewrite Hl. exact Hrun.
  - exact Hw'.
  - rewrite Hl'. eauto.
  - rewrite (connections_lookup _ _ _ Hl'). unfold StdList.values. simpl.
    rewrite fmap_app, omap_app, Hnews. f_equal.
    apply omap_lookup_agree. eapply Forall_impl; [exact Hlive |]. simpl. auto.
  - exact Hothers.
  - intros s Hs. unfold connections. rewrite (Hothers s Hs).
    destruct (signals w !! s) as [l'|] eqn:Hl''; [|done].
    destruct (wf_world_signal _ _ _ Hw Hl'') as (_ & _ & Hlive').
    apply omap_lookup_agree. eapply Forall_impl; [exact Hlive' |]. simpl. auto.
  - exact Hrcv.
Qed.

(** The budget counts the nodes the traversal visits: the connections
    present at the start and the duplicates appended meanwhile. *)
Lemma slot_duplicate_from_needs_fuel fuel :
  ∀ w this oldtarget newtarget pre rest f,
    oldtarget ≠ newtarget → wf_world w →
    signals w !! this = Some (StdList.Mk (pre ++ rest) f) →
    fuel ≤ length rest +
           length (filter (targets oldtarget) (omap (λ p, conns w !! p) rest.*2)) →
    slot_duplicate_from fuel w this oldtarget newtarget (StdList.first_of rest) =
      OutOfFuel.
Proof.
  induction fuel as [|fuel IH];
    intros w this oldtarget newtarget pre rest f Hne Hw Hl Hfuel; [done |].
  destruct rest as [|[n p] rest]; [simpl in Hfuel; lia |].
  pose proof (wf_world_signal _ _ _ Hw Hl) as ([Hnodes Hlt] & Hnd & Hlive).
  simpl in Hnodes. unfold StdList.values in Hlive. simpl in Hlive.
  destruct (NoDup_middle_notin pre rest n p Hnodes) as [Hnpre _].
  rewrite fmap_app, fmap_cons in Hlive. simpl in Hlive.
  apply Forall_app in Hlive as [_ Hlive_rest].
  apply Forall_cons in Hlive_rest as [[c Hc] Hlive_rest].
  simpl StdList.first_of.
  rewrite (slot_duplicate_from_step fuel w this oldtarget newtarget _ pre n p rest c
             Hl eq_refl Hnpre Hc).
  csimpl in Hfuel. rewrite Hc in Hfuel. simpl StdList.fresh.
  destruct (decide (targets oldtarget c)) as [Ht|Ht].
  - rewrite filter_cons_True in Hfuel by done. simpl in Hfuel.
    apply (IH _ this oldtarget newtarget (pre ++ [(n, p)]) (rest ++ [(f, brk w)]) (S f)).
    + done.
    + by apply wf_world_alloc_push.
    + simpl. rewrite lookup_insert_eq. unfold StdList.push_back. simpl.
      by rewrite <- !app_assoc.
    + rewrite fmap_app, omap_app. simpl conns.
      rewrite (resolve_alloc w _ _ Hw Hlive_rest). csimpl.
      rewrite lookup_insert_eq, filter_app, (filter_targets_retarget _ _ _ Hne).
      rewrite app_nil_r, length_app. simpl. lia.
  - rewrite filter_cons_False in Hfuel by done. simpl in Hfuel.
    apply (IH w this oldtarget newtarget (pre ++ [(n, p)]) rest f); try done.
    + by rewrite <- app_assoc.
    + lia.
Qed.

Lemma slot_duplicate_needs_fuel fuel w this oldtarget newtarget :
  oldtarget ≠ newtarget → wf_world w → is_Some (signals w !! this) →
  fuel ≤ length (connections w this) +
         length (filter (targets oldtarget) (connections w this)) →
  slot_duplicate fuel w this oldtarget newtarget = OutOfFuel.
Proof.
  intros Hne Hw [[cells f] Hl] Hfuel.
  pose proof (wf_world_signal _ _ _ Hw Hl) as (_ & _ & Hlive).
  rewrite (connections_lookup _ _ _ Hl) in Hfuel.
  unfold StdList.values in Hfuel, Hlive. simpl in Hfuel, Hlive.
  rewrite (omap_lookup_live_length _ _ Hlive), length_fmap in Hfuel.
  unfold slot_duplicate, m_connected_slots. rewrite Hl. simpl.
  by apply (slot_duplicate_from_needs_fuel fuel w this oldtarget newtarget [] cells f).
Qed.

(** C10. Under the precondition [newtarget ≠ oldtarget] the loop of
    [slot_duplicate] ends: its traversal visits the connections present
    at the start and the duplicates it appends, and no more (a budget
    above their number is enough, a smaller one is not).  The signal then
    holds its former connections followed by exactly one duplicate, with
    the new target and the same handler, per connection that targeted
    [oldtarget] at the start, in their order. *)
Theorem slot_duplicate_terminates w this oldtarget newtarget :
  newtarget ≠ oldtarget → wf_world w → is_Some (signals w !! this) →
  let visited :=
    length (connections w this) +
    length (filter (targets oldtarget) (connections w this)) in
  (∀ fuel, visited < fuel →
     ∃ w', slot_duplicate fuel w this oldtarget newtarget = Ok w' ∧
           connections w' this =
             connections w this ++
             (retarget newtarget <$> filter (targets oldtarget) (connections w this))) ∧
  (∀ fuel, fuel ≤ visited →
     slot_duplicate fuel w this oldtarget newtarget = OutOfFuel).
Proof.
  intros Hne Hw Hsig visited. split; intros fuel Hfuel.
  - destruct (slot_duplicate_spec fuel w this oldtarget newtarget)
      as (w' & Hrun & _ & _ & Hc & _); [congruence | done | done | done |].
    exists w'. done.
  - apply slot_duplicate_needs_fuel; [congruence | done | done | done].
Qed.

(** Two of three connections target receiver 20: five nodes are visited
    and two duplicates appended. *)
Lemma slot_duplicate_witness :
  (∃ w', slot_duplicate 6 w_two_handlers 10 20 21 = Ok w' ∧
         connections w' 10 =
           [Connection 20 1; Connection 30 5; Connection 20 2;
            Connection 21 1; Connection 21 2]) ∧
  slot_duplicate 5 w_two_handlers 10 20 21 = OutOfFuel.
Proof.
  destruct (slot_duplicate_terminates w_two_handlers 10 20 21) as [Hok Hout].
  - lia.
  - decide_by_computation.
  - vm_compute. eauto.
  - split.
    + destruct (Hok 6) as (w' & Hrun & Hc); [vm_compute; lia |].
      exists w'. split; [exact Hrun | exact Hc].
    + apply Hout. vm_compute. lia.
Defined.

(** The precondition is needed: with [newtarget = oldtarget] every
    appended duplicate matches again and no budget is enough. *)
Lemma slot_duplicate_from_same_target fuel :
  ∀ w this target pre rest f,
    wf_world w →
    signals w !! this = Some (StdList.Mk (pre ++ rest) f) →
    Exists (targets target) (omap (λ p, conns w !! p) rest.*2) →
    slot_duplicate_from fuel w this target target (StdList.first_of rest) = OutOfFuel.
Proof.
  induction fuel as [|fuel IH]; intros w this target pre rest f Hw Hl Hex; [done |].
  destruct rest as [|[n p] rest]; [by apply Exists_nil in Hex |].
  pose proof (wf_world_signal _ _ _ Hw Hl) as ([Hnodes Hlt] & Hnd & Hlive).
  simpl in Hnodes. unfold StdList.values in Hlive. simpl in Hlive.
  destruct (NoDup_middle_notin pre rest n p Hnodes) as [Hnpre _].
  rewrite fmap_app, fmap_cons in Hlive. simpl in Hlive.
  apply Forall_app in Hlive as [_ Hlive_rest].
  apply Forall_cons in Hlive_rest as [[c Hc] Hlive_rest].
  simpl StdList.first_of.
  rewrite (slot_duplicate_from_step fuel w this target target _ pre n p rest c
             Hl eq_refl Hnpre Hc).
  csimpl in Hex. rewrite Hc in Hex. simpl StdList.fresh.
  destruct (decide (targets target c)) as [Ht|Ht].
  - apply (IH _ this target (pre ++ [(n, p)]) (rest ++ [(f, brk w)]) (S f)).
    + by apply wf_world_alloc_push.
    + simpl. rewrite lookup_insert_eq. unfold StdList.push_back. simpl.
      by rewrite <- !app_assoc.
    + rewrite fmap_app, omap_app. apply Exists_app. right. csimpl.
      rewrite lookup_insert_eq. by apply Exists_cons_hd.
  - apply Exists_cons in Hex as [Hex|Hex]; [done |].
    apply (IH w this target (pre ++ [(n, p)]) rest f); [done | | done].
    by rewrite <- app_assoc.
Qed.

(** ** [disconnect] *)

Lemma filter_all {A : Type} (P : A → Prop) `{∀ x, Decision (P x)} (l : list A) :
  Forall P l → filter P l = l.
Proof.
  induction 1 as [|x l Hx _ IH]; [done |].
  rewrite filter_cons_True by done. by rewrite IH.
Qed.

Lemma filter_out_unique (p : ptr) (pre post : list ptr) :
  NoDup (pre ++ p :: post) → filter (λ q, q ≠ p) (pre ++ p :: post) = pre ++ post.
Proof.
  intros Hnd. apply NoDup_app in Hnd as (_ & Hpre & Hpost).
  apply NoDup_cons in Hpost as [Hp _].
  rewrite filter_app, filter_cons_False by (intros Hq; by apply Hq).
  rewrite !filter_all; [done | |].
  - apply Forall_forall. intros q Hq ->. done.
  - apply Forall_forall. intros q Hq ->. apply (Hpre _ Hq). left.
Qed.

Lemma values_remove (l : StdList.t ptr) (p : ptr) :
  StdList.values (StdList.remove l p) = filter (λ q, q ≠ p) (StdList.values l).
Proof.
  unfold StdList.values, StdList.remove. simpl.
  induction (StdList.cells l) as [|[n q] cs IH]; [done |].
  rewrite fmap_cons. simpl. destruct (decide (q ≠ p)) as [Hq|Hq].
  - rewrite !filter_cons_True by done. rewrite fmap_cons. simpl. by rewrite IH.
  - rewrite !filter_cons_False by done. exact IH.
Qed.

(** The first connection that targets [r], if any, splits the list. *)
Lemma first_match_split (m : gmap ptr connection) (r : ptr) (vs : list ptr) :
  Forall (λ p, is_Some (m !! p)) vs →
  Exists (targets r) (omap (λ p, m !! p) vs) →
  ∃ pre p c post,
    vs = pre ++ p :: post ∧ m !! p = Some c ∧ targets r c ∧
    Forall (λ c', ¬ targets r c') (omap (λ p, m !! p) pre).
Proof.
  induction 1 as [|q vs [c Hc] Hlive IH]; csimpl; intros Hex.
  - by apply Exists_nil in Hex.
  - rewrite Hc in Hex. destruct (decide (targets r c)) as [Ht|Ht].
    + exists [], q, c, vs. split_and!; done.
    + apply Exists_cons in Hex as [Hex|Hex]; [done |].
      destruct (IH Hex) as (pre & p & c' & post & -> & Hp & Ht' & Hpre).
      exists (q :: pre), p, c', post. split_and!; try done.
      csimpl. rewrite Hc. by constructor.
Qed.

Lemma remove_first_split {A : Type} (P : A → Prop) `{∀ x, Decision (P x)}
    (pre post : list A) (x : A) :
  Forall (λ y, ¬ P y) pre → P x →
  remove_first P (pre ++ x :: post) = pre ++ post.
Proof.
  intros Hpre Hx. induction Hpre as [|y pre Hy _ IH]; simpl.
  - by rewrite decide_True.
  - rewrite decide_False by done. by rewrite IH.
Qed.

Lemma remove_first_none {A : Type} (P : A → Prop) `{∀ x, Decision (P x)} (l : list A) :
  Forall (λ y, ¬ P y) l → remove_first P l = l.
Proof.
  induction 1 as [|y l Hy _ IH]; simpl; [done |].
  rewrite decide_False by done. by rewrite IH.
Qed.

(** The heap [disconnect] leaves when connection [slot] is its first match. *)
Lemma disconnect_loop_no_match w this pclass (slots : list ptr) :
  Forall (λ p, is_Some (conns w !! p)) slots →
  Forall (λ c, ¬ targets pclass c) (omap (λ p, conns w !! p) slots) →
  disconnect_loop w this pclass slots = Ok w.
Proof.
  induction 1 as [|p ps [c Hc] _ IH]; csimpl; [done |].
  rewrite Hc. intros Hno. apply Forall_cons in Hno as [Hc' Hno].
  unfold getdest. rewrite Hc. simpl. unfold targets in Hc'.
  rewrite decide_False by done. auto.
Qed.

Lemma disconnect_loop_match w this pclass (pre post : list ptr) slot c l ms :
  Forall (λ p, is_Some (conns w !! p)) pre →
  Forall (λ c, ¬ targets pclass c) (omap (λ p, conns w !! p) pre) →
  conns w !! slot = Some c → targets pclass c →
  signals w !! this = Some l → receivers w !! pclass = Some ms →
  disconnect_loop w this pclass (pre ++ slot :: post) =
    Ok (World (delete slot (conns w))
              (<[this := StdList.remove l slot]> (signals w))
              (<[pclass := ms ∖ {[this]}]> (receivers w))
              (brk w)).
Proof.
  intros Hlive Hno Hc Ht Hl Hms. induction Hlive as [|p ps [c' Hc'] _ IH]; csimpl.
  - unfold getdest. rewrite Hc. simpl. unfold targets in Ht.
    rewrite decide_True by done.
    unfold delete_connection. rewrite Hc. simpl.
    unfold m_connected_slots. simpl. rewrite Hl. simpl.
    unfold signal_disconnect. simpl. rewrite Hms. done.
  - csimpl in Hno. rewrite Hc' in Hno. apply Forall_cons in Hno as [Hn Hno].
    unfold getdest. rewrite Hc'. simpl. unfold targets in Hn.
    rewrite decide_False by done. auto.
Qed.

Lemma disconnect_never_connected w this pclass l :
  signals w !! this = Some l → signal_ok w l →
  Forall (λ c, ¬ targets pclass c) (connections w this) →
  disconnect w this pclass = Ok w.
Proof.
  intros Hl (_ & _ & Hlive) Hno. unfold disconnect, m_connected_slots.
  rewrite Hl. simpl. rewrite (connections_lookup _ _ _ Hl) in Hno.
  by apply disconnect_loop_no_match.
Qed.

(** With a match and a live receiver: the first matching connection goes,
    the others stay in their order, and the signal leaves the sender set
    of the receiver. *)
Lemma disconnect_spec w this pclass l ms :
  wf_world w → signals w !! this = Some l → receivers w !! pclass = Some ms →
  Exists (targets pclass) (connections w this) →
  ∃ w', disconnect w this pclass = Ok w' ∧
        connections w' this = remove_first (targets pclass) (connections w this) ∧
        receivers w' = <[pclass := ms ∖ {[this]}]> (receivers w).
Proof.
  intros Hw Hl Hms Hex.
  pose proof (wf_world_signal _ _ _ Hw Hl) as (_ & Hnd & Hlive).
  rewrite (connections_lookup _ _ _ Hl) in Hex |- *.
  destruct (first_match_split _ _ _ Hlive Hex)
    as (pre & slot & c & post & Hvs & Hc & Ht & Hpre).
  rewrite Hvs in Hlive, Hnd. apply Forall_app in Hlive as [Hlpre Hlpost].
  apply Forall_cons in Hlpost as [_ Hlpost].
  eexists. split_and!.
  - unfold disconnect, m_connected_slots. rewrite Hl. simpl. rewrite Hvs.
    by apply (disconnect_loop_match w this pclass pre post slot c l ms).
  - unfold connections. simpl. rewrite lookup_insert_eq.
    rewrite values_remove, Hvs, (filter_out_unique _ _ _ Hnd).
    rewrite !omap_app. csimpl. rewrite Hc.
    rewrite (remove_first_split _ _ _ _ Hpre Ht).
    apply NoDup_app in Hnd as (_ & Hdisj & Hnd').
    apply NoDup_cons in Hnd' as [Hslot _].
    f_equal; apply omap_lookup_agree, Forall_forall; intros q Hq;
      apply lookup_delete_ne; intros ->.
    + apply (Hdisj _ Hq). left.
    + done.
  - done.
Qed.

(** ** [slot_disconnect] *)

Lemma erased_node_gone {A : Type} (cs : list (StdList.node * A)) n :
  n ∉ (filter (λ c, c.1 ≠ n) cs).*1.
Proof.
  intros Hin. apply list_elem_of_fmap in Hin as ([m x] & -> & Hin).
  apply list_elem_of_filter in Hin as [Hne _]. by apply Hne.
Qed.

(** A turn of the loop at a connection that targets [pslot]: the node is
    erased and the erased iterator is then incremented. *)
Lemma slot_disconnect_from_step_match fuel w this pslot l pre n p post c :
  signals w !! this = Some l →
  StdList.cells l = pre ++ (n, p) :: post → n ∉ pre.*1 →
  conns w !! p = Some c → targets pslot c →
  slot_disconnect_from (S fuel) w this pslot (StdList.At n) = UB.
Proof.
  intros Hl Hcells Hn Hc Ht. simpl. unfold m_connected_slots at 1. rewrite Hl. simpl.
  rewrite Hcells, (value_at_middle pre post n p Hn). simpl.
  unfold getdest. rewrite Hc. simpl. unfold targets in Ht.
  rewrite decide_True by done. simpl.
  unfold delete_connection. rewrite Hc. simpl.
  unfold m_connected_slots. simpl. rewrite lookup_insert_eq. simpl.
  by rewrite (after_None _ n (erased_node_gone _ n)).
Qed.

Lemma slot_disconnect_from_step_other fuel w this pslot l pre n p post c :
  signals w !! this = Some l →
  StdList.cells l = pre ++ (n, p) :: post → n ∉ pre.*1 →
  conns w !! p = Some c → ¬ targets pslot c →
  slot_disconnect_from (S fuel) w this pslot (StdList.At n) =
    slot_disconnect_from fuel w this pslot (StdList.first_of post).
Proof.
  intros Hl Hcells Hn Hc Ht. simpl. unfold m_connected_slots at 1. rewrite Hl. simpl.
  rewrite Hcells, (value_at_middle pre post n p Hn). simpl.
  unfold getdest. rewrite Hc. simpl. unfold targets in Ht.
  rewrite decide_False by done. simpl.
  unfold m_connected_slots. rewrite Hl. simpl.
  by rewrite Hcells, (after_middle pre post n p Hn).
Qed.

(** With a connection that targets [pslot] ahead of the iterator the loop
    runs into undefined behaviour, wherever that connection is. *)
Lemma slot_disconnect_from_match w this pslot f (rest : list (StdList.node * ptr)) :
  ∀ fuel pre,
    signals w !! this = Some (StdList.Mk (pre ++ rest) f) →
    NoDup (pre ++ rest).*1 →
    Forall (λ p, is_Some (conns w !! p)) rest.*2 →
    Exists (targets pslot) (omap (λ p, conns w !! p) rest.*2) →
    length rest ≤ fuel →
    slot_disconnect_from fuel w this pslot (StdList.first_of rest) = UB.
Proof.
  induction rest as [|[n p] rest IH]; intros fuel pre Hl Hnd Hlive Hex Hfuel.
  { by apply Exists_nil in Hex. }
  destruct fuel as [|fuel]; [simpl in Hfuel; lia |].
  destruct (NoDup_middle_notin pre rest n p Hnd) as [Hnpre _].
  rewrite fmap_cons in Hlive. apply Forall_cons in Hlive as [[c Hc] Hlive].
  csimpl in Hex. simpl in Hc. rewrite Hc in Hex. simpl StdList.first_of.
  destruct (decide (targets pslot c)) as [Ht|Ht].
  - exact (slot_disconnect_from_step_match fuel w this pslot _ pre n p rest c
             Hl eq_refl Hnpre Hc Ht).
  - rewrite (slot_disconnect_from_step_other fuel w this pslot _ pre n p rest c
               Hl eq_refl Hnpre Hc Ht).
    apply Exists_cons in Hex as [Hex|Hex]; [done |].
    apply (IH fuel (pre ++ [(n, p)])); try done.
    + by rewrite <- app_assoc.
    + by rewrite <- app_assoc.
    + simpl in Hfuel. lia.
Qed.

(** Without such a connection the loop ends and changes nothing. *)
Lemma slot_disconnect_from_no_match w this pslot f (rest : list (StdList.node * ptr)) :
  ∀ fuel pre,
    signals w !! this = Some (StdList.Mk (pre ++ rest) f) →
    NoDup (pre ++ rest).*1 →
    Forall (λ p, is_Some (conns w !! p)) rest.*2 →
    Forall (λ c, ¬ targets pslot c) (omap (λ p, conns w !! p) rest.*2) →
    length rest < fuel →
    slot_disconnect_from fuel w this pslot (StdList.first_of rest) = Ok w.
Proof.
  induction rest as [|[n p] rest IH]; intros fuel pre Hl Hnd Hlive Hno Hfuel.
  { destruct fuel; [lia | done]. }
  destruct fuel as [|fuel]; [lia |].
  destruct (NoDup_middle_notin pre rest n p Hnd) as [Hnpre _].
  rewrite fmap_cons in Hlive. apply Forall_cons in Hlive as [[c Hc] Hlive].
  csimpl in Hno. simpl in Hc. rewrite Hc in Hno.
  apply Forall_cons in Hno as [Ht Hno]. simpl StdList.first_of.
  rewrite (slot_disconnect_from_step_other fuel w this pslot _ pre n p rest c
             Hl eq_refl Hnpre Hc Ht).
  apply (IH fuel (pre ++ [(n, p)])); try done.
  - by rewrite <- app_assoc.
  - by rewrite <- app_assoc.
  - simpl in Hfuel. lia.
Qed.

Lemma slot_disconnect_match fuel w this pslot :
  wf_world w → is_Some (signals w !! this) →
  Exists (targets pslot) (connections w this) →
  length (connections w this) ≤ fuel →
  slot_disconnect fuel w this pslot = UB.
Proof.
  intros Hw [[cells f] Hl] Hex Hfuel.
  pose proof (wf_world_signal _ _ _ Hw Hl) as ([Hnd _] & _ & Hlive).
  rewrite (connections_lookup _ _ _ Hl) in Hex, Hfuel.
  unfold StdList.values in Hex, Hfuel, Hlive. simpl in Hex, Hfuel, Hlive, Hnd.
  rewrite (omap_lookup_live_length _ _ Hlive), length_fmap in Hfuel.
  unfold slot_disconnect, m_connected_slots. rewrite Hl. simpl.
  by apply (slot_disconnect_from_match w this pslot f cells fuel []).
Qed.

Lemma slot_disconnect_no_match fuel w this pslot :
  wf_world w → is_Some (signals w !! this) →
  Forall (λ c, ¬ targets pslot c) (connections w this) →
  length (connections w this) < fuel →
  slot_disconnect fuel w this pslot = Ok w.
Proof.
  intros Hw [[cells f] Hl] Hno Hfuel.
  pose proof (wf_world_signal _ _ _ Hw Hl) as ([Hnd _] & _ & Hlive).
  rewrite (connections_lookup _ _ _ Hl) in Hno, Hfuel.
  unfold StdList.values in Hno, Hfuel, Hlive. simpl in Hno, Hfuel, Hlive, Hnd.
  rewrite (omap_lookup_live_length _ _ Hlive), length_fmap in Hfuel.
  unfold slot_disconnect, m_connected_slots. rewrite Hl. simpl.
  by apply (slot_disconnect_from_no_match w this pslot f cells fuel []).
Qed.

Lemma w_one_reached : connect w_fresh 10 20 1 = Ok w_one.
Proof. vm_compute. reflexivity. Qed.

Lemma w_two_reached : connect_all w_fresh 10 [(20, 1); (20, 2)] = Ok w_two.
Proof. vm_compute. reflexivity. Qed.

Lemma w_left_reached : disconnect w_two 10 20 = Ok w_left.
Proof. vm_compute. reflexivity. Qed.

Lemma w_two_handlers_reached :
  connect_all w_three_receivers 10 [(20, 1); (30, 5); (20, 2)] = Ok w_two_handlers.
Proof. vm_compute. reflexivity. Qed.

Lemma w_registered_only_reached :
  signal_connect w_two_handlers 21 10 = Ok w_registered_only.
Proof. vm_compute. reflexivity. Qed.

(** C4. [slot_disconnect] erases the node of a matching connection and
    then increments the iterator of the erased node.  On a signal whose
    only connection targets the receiver, and on a signal where two
    matching connections follow one to another receiver, the call is
    undefined instead of removing the matching connections. *)
Theorem slot_disconnect_increments_erased_iterator :
  connect w_fresh 10 20 1 = Ok w_one ∧
  (∀ fuel, slot_disconnect (S fuel) w_one 10 20 = UB) ∧
  connect_all w_three_receivers 10 [(20, 1); (30, 5); (20, 2)] = Ok w_two_handlers ∧
  (∀ fuel, slot_disconnect (3 + fuel) w_two_handlers 10 20 = UB).
Proof.
  split; [exact w_one_reached |].
  split; [| split; [exact w_two_handlers_reached |]]; intros fuel.
  - apply slot_disconnect_match.
    + decide_by_computation.
    + vm_compute. eauto.
    + decide_by_computation.
    + vm_compute. lia.
  - apply slot_disconnect_match.
    + decide_by_computation.
    + vm_compute. eauto.
    + decide_by_computation.
    + vm_compute. lia.
Qed.

(** ** [has_slots::disconnect_all] and [~has_slots] *)

Lemma has_slots_disconnect_all_loop_match fuel w this (ss : list ptr) :
  wf_world w →
  Forall (λ s, is_Some (signals w !! s) ∧ length (connections w s) < fuel) ss →
  Exists (λ s, Exists (targets this) (connections w s)) ss →
  has_slots_disconnect_all_loop fuel w this ss = UB.
Proof.
  intros Hw Hss Hex. induction Hss as [|s ss [Hs Hlen] _ IH]; simpl.
  - by apply Exists_nil in Hex.
  - destruct (decide (Exists (targets this) (connections w s))) as [Hm|Hm].
    + rewrite (slot_disconnect_match fuel w s this Hw Hs Hm); [done | lia].
    + rewrite (slot_disconnect_no_match fuel w s this Hw Hs); [| | done].
      * simpl. apply IH. apply Exists_cons in Hex as [Hex|Hex]; done.
      * apply Forall_forall. intros c Hc Ht. apply Hm, Exists_exists. eauto.
Qed.

(** A receiver with a sender that still holds a connection to it cannot
    be disconnected or destroyed: [slot_disconnect] is undefined there. *)
Lemma has_slots_disconnect_all_match fuel w this ms :
  wf_world w → receivers w !! this = Some ms →
  (∀ s, s ∈ ms → is_Some (signals w !! s) ∧ length (connections w s) < fuel) →
  (∃ s, s ∈ ms ∧ Exists (targets this) (connections w s)) →
  has_slots_disconnect_all fuel w this = UB.
Proof.
  intros Hw Hms Hss (s & Hs & Hm). unfold has_slots_disconnect_all.
  rewrite Hms. simpl.
  rewrite (has_slots_disconnect_all_loop_match fuel w this (elements ms) Hw); [done | |].
  - apply Forall_forall. intros s' Hs'. apply Hss. by apply elem_of_elements.
  - apply Exists_exists. exists s. split; [by apply elem_of_elements | done].
Qed.

(** ** [_signal::disconnect_all] and [~_signal] *)

Lemma signal_disconnect_all_loop_spec this (slots : list ptr) :
  ∀ w,
    NoDup slots →
    Forall (λ p, is_Some (conns w !! p)) slots →
    Forall (λ c, is_Some (receivers w !! m_pobject c)) (omap (λ p, conns w !! p) slots) →
    ∃ w', signal_disconnect_all_loop w this slots = Ok w' ∧
          signals w' = signals w ∧ brk w' = brk w ∧
          (∀ q, q ∉ slots → conns w' !! q = conns w !! q) ∧
          (∀ r, is_Some (receivers w' !! r) ↔ is_Some (receivers w !! r)) ∧
          (∀ r, senders w' r =
                if decide (Exists (targets r) (omap (λ p, conns w !! p) slots))
                then senders w r ∖ {[this]} else senders w r).
Proof.
  induction slots as [|p ps IH]; intros w Hnd Hlive Htl; csimpl.
  - exists w. split_and!; done.
  - apply NoDup_cons in Hnd as [Hp Hnd].
    apply Forall_cons in Hlive as [[c Hc] Hlive].
    csimpl in Htl. rewrite Hc in Htl. apply Forall_cons in Htl as [[ms Hms] Htl].
    unfold getdest. rewrite Hc. simpl.
    unfold signal_disconnect. rewrite Hms. simpl.
    unfold delete_connection. simpl. rewrite Hc. simpl.
    set (w2 := set_conns (set_receivers w (<[m_pobject c := ms ∖ {[this]}]> (receivers w)))
                 (delete p (conns w))).
    assert (Hagree : Forall (λ q, conns w2 !! q = conns w !! q) ps).
    { apply Forall_forall. intros q Hq. simpl. apply lookup_delete_ne.
      intros ->. done. }
    assert (Hres : omap (λ q, conns w2 !! q) ps = omap (λ q, conns w !! q) ps).
    { by apply omap_lookup_agree. }
    destruct (IH w2) as (w' & Hrun & Hsig & Hbrk & Hkeep & Hdom & Hsend).
    + done.
    + rewrite Forall_forall in Hagree, Hlive |- *. intros q Hq.
      rewrite (Hagree q Hq). auto.
    + rewrite Hres. eapply Forall_impl; [exact Htl |]. simpl. intros c' Hc'.
      apply lookup_insert_is_Some. destruct (decide (m_pobject c = m_pobject c')); auto.
    + exists w'. split_and!; try done.
      * intros q Hq. apply not_elem_of_cons in Hq as [Hqp Hq].
        rewrite (Hkeep q Hq). simpl. by apply lookup_delete_ne.
      * intros r. rewrite Hdom. simpl. rewrite lookup_insert_is_Some.
        split; [intros [<-|[_ H]]; eauto | intros H].
        destruct (decide (m_pobject c = r)); auto.
      * intros r. rewrite Hsend, Hres. unfold senders at 1 2. simpl.
        destruct (decide (m_pobject c = r)) as [<-|Hr].
        -- rewrite lookup_insert_eq. simpl. unfold senders. rewrite Hms. simpl.
           rewrite (decide_True (P := Exists _ (c :: _)))
             by (by apply Exists_cons_hd).
           case_decide; [apply difference_twice_L | done].
        -- rewrite lookup_insert_ne by done. fold (senders w r).
           destruct (decide (Exists (targets r) (omap (λ q, conns w !! q) ps)))
             as [He|He].
           ++ rewrite decide_True by (by apply Exists_cons_tl). done.
           ++ rewrite decide_False; [done |].
              intros He'. apply Exists_cons in He' as [He'|He']; done.
Qed.

Lemma set_connected_slots_same w this l :
  signals w !! this = Some l → set_connected_slots w this l = w.
Proof.
  intros Hl. destruct w as [c s r b]. unfold set_connected_slots, set_signals.
  simpl in *. by rewrite insert_id.
Qed.

Lemma signal_disconnect_all_spec w this l :
  wf_world w → signals w !! this = Some l → targets_live w this →
  ∃ w', signal_disconnect_all w this = Ok w' ∧
        signals w' = <[this := StdList.clear l]> (signals w) ∧
        (∀ r, is_Some (receivers w' !! r) ↔ is_Some (receivers w !! r)) ∧
        (∀ r, senders w' r =
              if decide (Exists (targets r) (connections w this))
              then senders w r ∖ {[this]} else senders w r).
Proof.
  intros Hw Hl Htl. pose proof (wf_world_signal _ _ _ Hw Hl) as (_ & Hnd & Hlive).
  unfold targets_live in Htl. rewrite (connections_lookup _ _ _ Hl) in Htl |- *.
  destruct (signal_disconnect_all_loop_spec this (StdList.values l) w Hnd Hlive Htl)
    as (w' & Hrun & Hsig & _ & _ & Hdom & Hsend).
  unfold signal_disconnect_all, m_connected_slots. rewrite Hl. simpl.
  rewrite Hrun. simpl. rewrite Hsig, Hl. simpl.
  eexists. split; [done |]. simpl. rewrite Hsig. done.
Qed.

(** Destroying a signal whose connections all target live receivers
    succeeds and takes the signal out of the sender set of every receiver
    it was connected to. *)
Lemma signal_destroy_spec w this :
  wf_world w → is_Some (signals w !! this) → targets_live w this →
  ∃ w', signal_destroy w this = Ok w' ∧ signals w' !! this = None ∧
        ∀ r, Exists (targets r) (connections w this) →
             senders w' r = senders w r ∖ {[this]}.
Proof.
  intros Hw [l Hl] Htl.
  destruct (signal_disconnect_all_spec w this l Hw Hl Htl)
    as (w' & Hrun & Hsig & _ & Hsend).
  unfold signal_destroy. rewrite Hrun. simpl. eexists. split_and!; [done | |].
  - simpl. apply lookup_delete_eq.
  - intros r Hr. unfold senders at 1. simpl. fold (senders w' r).
    rewrite Hsend. by rewrite decide_True.
Qed.

(** C5. Destroying a receiver that is connected to a signal with two
    handlers is undefined: the destructor calls [slot_disconnect], which
    increments the iterator of the node it has erased, so nothing is
    guaranteed about a later [emit].  Destroying the signal instead
    succeeds and leaves the sender set of the receiver empty. *)
Theorem destroying_connected_receiver_is_undefined :
  connect_all w_fresh 10 [(20, 1); (20, 2)] = Ok w_two ∧
  (∀ fuel, has_slots_destroy (3 + fuel) w_two 20 = UB) ∧
  (∃ w', signal_destroy w_two 10 = Ok w' ∧ signals w' !! 10 = None ∧
         senders w' 20 = ∅).
Proof.
  split; [exact w_two_reached |]. split.
  - intros fuel. unfold has_slots_destroy.
    rewrite (has_slots_disconnect_all_match (3 + fuel) w_two 20 {[10]}); [done | | | |].
    + decide_by_computation.
    + vm_compute. reflexivity.
    + intros s Hs. apply elem_of_singleton in Hs as ->. split.
      * vm_compute. eauto.
      * vm_compute. lia.
    + exists 10. split; [by apply elem_of_singleton |]. decide_by_computation.
  - eexists. split_and!; vm_compute; reflexivity.
Qed.

(** ** Teardown twice *)

Lemma signal_disconnect_all_twice w this :
  wf_world w → is_Some (signals w !! this) → targets_live w this →
  ∃ w1, signal_disconnect_all w this = Ok w1 ∧ signal_disconnect_all w1 this = Ok w1.
Proof.
  intros Hw [l Hl] Htl.
  destruct (signal_disconnect_all_spec w this l Hw Hl Htl)
    as (w1 & Hrun & Hsig & _ & _).
  exists w1. split; [done |].
  assert (Hl1 : signals w1 !! this = Some (StdList.clear l)).
  { rewrite Hsig. apply lookup_insert_eq. }
  unfold signal_disconnect_all, m_connected_slots. rewrite Hl1. simpl.
  rewrite Hl1. simpl. f_equal. by apply set_connected_slots_same.
Qed.

Lemma has_slots_disconnect_all_twice fuel w this w1 :
  has_slots_disconnect_all fuel w this = Ok w1 →
  has_slots_disconnect_all fuel w1 this = Ok w1.
Proof.
  unfold has_slots_disconnect_all at 1. intros Hrun.
  apply obind_Ok in Hrun as (ms & _ & Hrun).
  apply obind_Ok in Hrun as (w0 & _ & Hrun).
  apply obind_Ok in Hrun as (ms0 & _ & Hrun).
  injection Hrun as <-.
  unfold has_slots_disconnect_all. simpl. rewrite lookup_insert_eq. simpl.
  rewrite elements_empty. simpl. rewrite lookup_insert_eq. simpl.
  unfold set_receivers. simpl. by rewrite insert_insert_eq.
Qed.

Lemma has_slots_disconnect_all_loop_no_match fuel w this (ss : list ptr) :
  wf_world w →
  Forall (λ s, is_Some (signals w !! s) ∧
               Forall (λ c, ¬ targets this c) (connections w s) ∧
               length (connections w s) < fuel) ss →
  has_slots_disconnect_all_loop fuel w this ss = Ok w.
Proof.
  intros Hw Hss. induction Hss as [|s ss (Hs & Hno & Hlen) _ IH]; simpl; [done |].
  by rewrite (slot_disconnect_no_match fuel w s this Hw Hs Hno Hlen).
Qed.

(** The first call on a receiver returns when no sender holds a
    connection to it any more. *)
Lemma has_slots_disconnect_all_no_match fuel w this ms :
  wf_world w → receivers w !! this = Some ms →
  (∀ s, s ∈ ms → is_Some (signals w !! s) ∧
                 Forall (λ c, ¬ targets this c) (connections w s) ∧
                 length (connections w s) < fuel) →
  has_slots_disconnect_all fuel w this =
    Ok (set_receivers w (<[this := ∅]> (receivers w))).
Proof.
  intros Hw Hms Hss. unfold has_slots_disconnect_all. rewrite Hms. simpl.
  rewrite (has_slots_disconnect_all_loop_no_match fuel w this (elements ms) Hw).
  - simpl. by rewrite Hms.
  - apply Forall_forall. intros s Hs. apply Hss. by apply elem_of_elements.
Qed.

(** The parts of teardown that are idempotent.  A second
    [disconnect_all] right after a first one returns the heap it was
    given.  On a signal the first call succeeds whenever the
    connections target live receivers.  On a receiver the first call
    returns when no sender holds a connection to it, and whenever it
    returns the second call changes nothing.  [disconnect] of a receiver
    that has no connection in the signal returns the heap unchanged: the
    connection sequence and every sender set are as before. *)
Theorem teardown_is_idempotent w :
  (∀ this, wf_world w → is_Some (signals w !! this) → targets_live w this →
     ∃ w1, signal_disconnect_all w this = Ok w1 ∧
           signal_disconnect_all w1 this = Ok w1) ∧
  (∀ fuel this ms,
     wf_world w → receivers w !! this = Some ms →
     (∀ s, s ∈ ms → is_Some (signals w !! s) ∧
                    Forall (λ c, ¬ targets this c) (connections w s) ∧
                    length (connections w s) < fuel) →
     ∃ w1, has_slots_disconnect_all fuel w this = Ok w1 ∧
           has_slots_disconnect_all fuel w1 this = Ok w1) ∧
  (∀ fuel this w1,
     has_slots_disconnect_all fuel w this = Ok w1 →
     has_slots_disconnect_all fuel w1 this = Ok w1) ∧
  (∀ this pclass, wf_world w → is_Some (signals w !! this) →
     Forall (λ c, ¬ targets pclass c) (connections w this) →
     disconnect w this pclass = Ok w).
Proof.
  split_and!.
  - intros this. apply signal_disconnect_all_twice.
  - intros fuel this ms Hw Hms Hss. eexists. split.
    + by apply (has_slots_disconnect_all_no_match fuel w this ms).
    + apply has_slots_disconnect_all_twice with (w := w).
      by apply (has_slots_disconnect_all_no_match fuel w this ms).
  - intros fuel this w1. apply has_slots_disconnect_all_twice.
  - intros this pclass Hw [l Hl] Hno.
    eapply disconnect_never_connected; eauto using wf_world_signal.
Qed.

(** The four parts on a heap where receiver 21 is registered with signal
    10 but has no connection in it. *)
Lemma teardown_witness :
  (∃ w1, signal_disconnect_all w_registered_only 10 = Ok w1 ∧
         signal_disconnect_all w1 10 = Ok w1) ∧
  (∃ w1, has_slots_disconnect_all 4 w_registered_only 21 = Ok w1 ∧
         has_slots_disconnect_all 4 w1 21 = Ok w1) ∧
  has_slots_disconnect_all 4 w_two_handlers 21 = Ok w_two_handlers ∧
  disconnect w_registered_only 10 21 = Ok w_registered_only.
Proof.
  destruct (teardown_is_idempotent w_registered_only) as (Hsig & Hrcv & Hrcv' & Hdis).
  split_and!.
  - apply Hsig.
    + decide_by_computation.
    + vm_compute. eauto.
    + decide_by_computation.
  - apply (Hrcv 4 21 {[10]}).
    + decide_by_computation.
    + vm_compute. reflexivity.
    + intros s Hs. apply elem_of_singleton in Hs. subst s. split_and!.
      * vm_compute. eauto.
      * decide_by_computation.
      * vm_compute. lia.
  - apply (Hrcv' 4 21). vm_compute. reflexivity.
  - apply Hdis.
    + decide_by_computation.
    + vm_compute. eauto.
    + decide_by_computation.
Defined.

(** C8. Signal 10 is connected to receiver 20 with handler 1.  Calling
    [disconnect_all] on the receiver twice in a row is undefined from the
    first call on: it calls [slot_disconnect], which increments the
    iterator of the node it has erased, so there is no state for a second
    call to leave unchanged (with no budget the loop does not even
    start).  On the signal of the same heap the two calls succeed and the
    second changes nothing, and [disconnect] of receiver 30, which has no
    connection in the signal, returns the heap unchanged. *)
Theorem receiver_disconnect_all_twice_is_undefined :
  connect w_fresh 10 20 1 = Ok w_one ∧
  (∀ fuel, has_slots_disconnect_all fuel w_one 20 =
           match fuel with 0 => OutOfFuel | S _ => UB end) ∧
  (∀ fuel, (w1 ←← has_slots_disconnect_all (S fuel) w_one 20;
            has_slots_disconnect_all (S fuel) w1 20) = UB) ∧
  (∃ w1, signal_disconnect_all w_one 10 = Ok w1 ∧
         signal_disconnect_all w1 10 = Ok w1) ∧
  disconnect w_one 10 30 = Ok w_one.
Proof.
  assert (Hfirst : ∀ fuel, has_slots_disconnect_all fuel w_one 20 =
                           match fuel with 0 => OutOfFuel | S _ => UB end).
  { intros [|[|fuel]].
    - vm_compute. reflexivity.
    - vm_compute. reflexivity.
    - apply (has_slots_disconnect_all_match (S (S fuel)) w_one 20 {[10]}).
      + decide_by_computation.
      + vm_compute. reflexivity.
      + intros s Hs. apply elem_of_singleton in Hs as ->. split.
        * vm_compute. eauto.
        * vm_compute. lia.
      + exists 10. split; [by apply elem_of_singleton |]. decide_by_computation. }
  split_and!.
  - exact w_one_reached.
  - exact Hfirst.
  - intros fuel. by rewrite (Hfirst (S fuel)).
  - eexists. split; vm_compute; reflexivity.
  - vm_compute. reflexivity.
Qed.

(** ** Copying a signal *)

(** The loop of the copy constructor runs over the list of the new
    signal, which is empty: the copy has no connection and is registered
    with no receiver, whatever the source holds. *)
Lemma signal_copy_spec fuel w this s :
  is_Some (signals w !! s) →
  signal_copy (S fuel) w this s = Ok (signal_new w this).
Proof.
  intros [l Hl]. unfold signal_copy, m_connected_slots. rewrite Hl. simpl.
  by rewrite lookup_insert_eq.
Qed.

Lemma signal_copy_connections fuel w this s w' :
  signal_copy fuel w this s = Ok w' →
  connections w' this = [] ∧ receivers w' = receivers w.
Proof.
  unfold signal_copy. intros Hrun. apply obind_Ok in Hrun as (l & _ & Hrun).
  unfold m_connected_slots in Hrun. simpl in Hrun.
  rewrite lookup_insert_eq in Hrun. simpl in Hrun.
  destruct fuel as [|fuel]; [done |]. simpl in Hrun. injection Hrun as <-.
  unfold connections. simpl. by rewrite lookup_insert_eq.
Qed.

(** C1. Signal 10 (a signal without arguments) is connected to receiver
    20 with handler 1, and is copied into a new signal 11.  The copy
    holds no connection and is not in the sender set of the receiver:
    emitting the source invokes the handler, emitting the copy invokes
    nothing. *)
Theorem copied_signal_has_no_connection :
  connect w_fresh 10 20 1 = Ok w_one ∧
  ∀ fuel, ∃ w',
    signal_copy (S fuel) w_one 11 10 = Ok w' ∧
    connections w' 10 = [Connection 20 1] ∧
    connections w' 11 = [] ∧
    senders w' 20 = {[10]} ∧
    emit w' 10 () = Ok [Call 20 1 ()] ∧
    emit w' 11 () = Ok [].
Proof.
  split; [exact w_one_reached |].
  intros fuel. exists (signal_new w_one 11). split.
  - apply signal_copy_spec. vm_compute. eauto.
  - split_and!; vm_compute; reflexivity.
Qed.

(** ** [disconnect] and the sender set *)

(** The invariant is decided on the live objects. *)
Lemma consistent_iff_check w : consistent w ↔ consistent_check w.
Proof.
  split.
  - intros [Hreg Hcon]. split.
    + intros r ms Hms s Hs. apply Exists_exists, (Hreg s r).
      unfold senders. by rewrite Hms.
    + intros s l _. apply Forall_forall. intros c Hc. by apply Hcon.
  - intros [Hreg Hcon]. split.
    + intros s r Hs. unfold senders in Hs.
      destruct (receivers w !! r) as [ms|] eqn:Hms; simpl in Hs.
      * apply Exists_exists. exact (Hreg r ms Hms s Hs).
      * by apply elem_of_empty in Hs.
    + intros s c Hc.
      destruct (signals w !! s) as [l|] eqn:Hl.
      * pose proof (Hcon s l Hl) as Hall. rewrite Forall_forall in Hall. auto.
      * unfold connections in Hc. rewrite Hl in Hc. by apply elem_of_nil in Hc.
Qed.

Lemma w_two_consistent : consistent w_two.
Proof. apply consistent_iff_check. decide_by_computation. Qed.

Lemma w_left_inconsistent : ¬ consistent w_left.
Proof. rewrite consistent_iff_check. decide_by_computation. Qed.

(** [connect] keeps the invariant. *)
Lemma connect_consistent w this pclass pmemfun w' :
  wf_world w → consistent w → connect w this pclass pmemfun = Ok w' →
  consistent w'.
Proof.
  intros Hw [Hreg Hcon] Hrun.
  destruct (signals w !! this) as [l|] eqn:Hl;
    [| by unfold connect, m_connected_slots in Hrun; rewrite Hl in Hrun].
  destruct (receivers w !! pclass) as [ms|] eqn:Hms.
  2:{ unfold connect, m_connected_slots, push_back_slot, m_connected_slots in Hrun.
      simpl in Hrun. rewrite Hl in Hrun. simpl in Hrun.
      unfold signal_connect in Hrun. simpl in Hrun. by rewrite Hms in Hrun. }
  rewrite (connect_spec w this pclass pmemfun l ms Hl Hms) in Hrun.
  injection Hrun as <-.
  set (c := Connection pclass pmemfun).
  set (w' := set_receivers (alloc_push w this l c) _).
  assert (Hc_this : connections w' this = connections w this ++ [c]).
  { unfold w'. rewrite connections_set_receivers.
    by apply connections_alloc_push_this. }
  assert (Hc_other : ∀ s, s ≠ this → connections w' s = connections w s).
  { intros s Hs. unfold w'. rewrite connections_set_receivers.
    by apply connections_alloc_push_other. }
  assert (Hc_mono : ∀ s c', c' ∈ connections w s → c' ∈ connections w' s).
  { intros s c' Hc'. destruct (decide (s = this)) as [->|Hs].
    - rewrite Hc_this. apply elem_of_app. by left.
    - by rewrite Hc_other. }
  assert (Hs_new : ∀ r, senders w' r =
                        if decide (pclass = r) then {[this]} ∪ senders w r
                        else senders w r).
  { intros r. unfold senders. simpl. destruct (decide (pclass = r)) as [<-|Hr].
    - rewrite lookup_insert_eq, Hms. done.
    - by rewrite lookup_insert_ne. }
  assert (Hs_mono : ∀ s r, s ∈ senders w r → s ∈ senders w' r).
  { intros s r Hs. rewrite Hs_new. case_decide; [|done].
    apply elem_of_union. by right. }
  split.
  - intros s r Hs. rewrite Hs_new in Hs.
    assert (Hcases : (pclass = r ∧ s = this) ∨ s ∈ senders w r).
    { case_decide; [|by right].
      apply elem_of_union in Hs as [Hs|Hs]; [|by right].
      apply elem_of_singleton in Hs. by left. }
    destruct Hcases as [[<- ->]|Hold].
    + exists c. split; [|done]. rewrite Hc_this. apply elem_of_app. right. left.
    + destruct (Hreg s r Hold) as (c' & Hc' & Ht). exists c'. auto.
  - intros s c' Hc'. destruct (decide (s = this)) as [->|Hs].
    + rewrite Hc_this in Hc'. apply elem_of_app in Hc' as [Hc'|Hc'].
      * apply Hs_mono. by apply Hcon.
      * apply list_elem_of_singleton in Hc' as ->. rewrite Hs_new. simpl.
        rewrite decide_True by done. apply elem_of_union. left.
        by apply elem_of_singleton.
    + rewrite Hc_other in Hc' by done. apply Hs_mono. by apply Hcon.
Qed.

(** The other ways of taking connections away keep the invariant:
    [disconnect] of the only connection to a receiver, and
    [disconnect_all] on the signal with both connections. *)
Lemma disconnect_single_consistent :
  disconnect w_one 10 20 = Ok w_none ∧ consistent w_none.
Proof.
  split; [vm_compute; reflexivity |].
  apply consistent_iff_check. decide_by_computation.
Qed.

Lemma signal_disconnect_all_consistent :
  signal_disconnect_all w_two 10 = Ok w_cleared ∧ consistent w_cleared.
Proof.
  split; [vm_compute; reflexivity |].
  apply consistent_iff_check. decide_by_computation.
Qed.

Lemma filter_nonempty_Exists {A : Type} (P : A → Prop) `{∀ x, Decision (P x)}
    (l : list A) :
  0 < length (filter P l) → Exists P l.
Proof.
  induction l as [|x l IH]; simpl; [lia |].
  destruct (decide (P x)) as [Hx|Hx].
  - intros _. by left.
  - rewrite filter_cons_False by done. intros Hlen. right. auto.
Qed.

Lemma remove_first_leaves_match {A : Type} (P : A → Prop) `{∀ x, Decision (P x)}
    (l : list A) :
  1 < length (filter P l) → Exists P (remove_first P l).
Proof.
  induction l as [|x l IH]; simpl; [lia |].
  destruct (decide (P x)) as [Hx|Hx].
  - rewrite filter_cons_True by done. simpl. intros Hlen.
    apply (filter_nonempty_Exists P). lia.
  - rewrite filter_cons_False by done. intros Hlen. right. auto.
Qed.

(** Whenever a signal holds more than one connection to a live receiver,
    [disconnect] leaves a state in which a connection to the receiver
    remains and the receiver does not list the signal. *)
Lemma disconnect_with_connection_left w this pclass ms :
  wf_world w → is_Some (signals w !! this) → receivers w !! pclass = Some ms →
  1 < length (filter (targets pclass) (connections w this)) →
  ∃ w', disconnect w this pclass = Ok w' ∧
        Exists (targets pclass) (connections w' this) ∧
        (this ∉ senders w' pclass) ∧
        ¬ consistent w'.
Proof.
  intros Hw [l Hl] Hms Hlen.
  destruct (disconnect_spec w this pclass l ms Hw Hl Hms) as (w' & Hrun & Hc & Hrcv).
  { apply (filter_nonempty_Exists (targets pclass)). lia. }
  assert (Hleft : Exists (targets pclass) (connections w' this)).
  { rewrite Hc. by apply (remove_first_leaves_match (targets pclass)). }
  assert (Hout : this ∉ senders w' pclass).
  { unfold senders. rewrite Hrcv, lookup_insert_eq. simpl.
    intros Hin. apply elem_of_difference in Hin as [_ Hin].
    apply Hin. by apply elem_of_singleton. }
  exists w'. split_and!; try done.
  intros [_ Hcon]. apply Exists_exists in Hleft as (c & Hcin & Ht).
  apply Hout. unfold targets in Ht. rewrite <- Ht. by apply Hcon.
Qed.

(** C2. Signal 10 is connected to receiver 20 with handlers 1 and 2; the
    sender sets and the connection lists agree in both directions.
    [disconnect] then removes the first connection and takes the signal
    out of the sender set of the receiver, while the second connection
    still targets it: the invariant does not hold in the state reached. *)
Theorem disconnect_breaks_consistency :
  connect_all w_fresh 10 [(20, 1); (20, 2)] = Ok w_two ∧
  consistent w_two ∧
  disconnect w_two 10 20 = Ok w_left ∧
  ¬ consistent w_left.
Proof.
  split_and!.
  - exact w_two_reached.
  - exact w_two_consistent.
  - exact w_left_reached.
  - exact w_left_inconsistent.
Qed.

(** C3. After [connect] with handlers 1 and 2 on receiver 20,
    [disconnect(receiver)] removes the first connection only: the second
    one stays and fires on the next [emit].  The sender set of the
    receiver no longer lists the signal although that connection
    remains; the receiver can then be destroyed without the signal being
    told, and the next [emit] calls into the destroyed receiver. *)
Theorem disconnect_unregisters_with_connection_left :
  ∃ w', disconnect w_two 10 20 = Ok w' ∧
        connections w_two 10 = [Connection 20 1; Connection 20 2] ∧
        connections w' 10 = [Connection 20 2] ∧
        emit w' 10 7 = Ok [Call 20 2 7] ∧
        10 ∈ senders w_two 20 ∧
        (10 ∉ senders w' 20) ∧
        ∀ fuel, ∃ w'', has_slots_destroy fuel w' 20 = Ok w'' ∧
                       connections w'' 10 = [Connection 20 2] ∧
                       emit w'' 10 7 = UB.
Proof.
  exists w_left. split_and!.
  - exact w_left_reached.
  - vm_compute. reflexivity.
  - vm_compute. reflexivity.
  - vm_compute. reflexivity.
  - decide_by_computation.
  - decide_by_computation.
  - intros fuel. eexists. split_and!; vm_compute; reflexivity.
Qed.

(** ** Copying a receiver *)

Lemma has_slots_copy_loop_spec fuel this hs (ss : list ptr) :
  ∀ w seen,
    this ≠ hs → wf_world w → NoDup ss → receivers w !! this = Some seen →
    Forall (λ s, is_Some (signals w !! s) ∧
                 length (connections w s) +
                   length (filter (targets hs) (connections w s)) < fuel) ss →
    ∃ w', has_slots_copy_loop fuel w this hs ss = Ok w' ∧ wf_world w' ∧
          receivers w' = <[this := list_to_set ss ∪ seen]> (receivers w) ∧
          (∀ s, is_Some (signals w !! s) → is_Some (signals w' !! s)) ∧
          (∀ s, s ∈ ss →
             connections w' s =
               connections w s ++
               (retarget this <$> filter (targets hs) (connections w s))) ∧
          (∀ s, s ∉ ss → connections w' s = connections w s).
Proof.
  induction ss as [|s ss IH]; intros w seen Hne Hw Hnd Hthis Hss; simpl.
  - exists w. split_and!; try done.
    + rewrite (left_id_L ∅ (∪)). by rewrite insert_id.
    + intros s Hs. by apply elem_of_nil in Hs.
  - apply NoDup_cons in Hnd as [Hs Hnd].
    apply Forall_cons in Hss as [[Hsig Hfuel] Hss].
    destruct (slot_duplicate_spec fuel w s hs this)
      as (w1 & Hrun & Hw1 & Hsig1 & Hc1 & Hsigs1 & Hcs1 & Hrcv1);
      [congruence | done | done | done |].
    assert (Hthis1 : receivers w1 !! this = Some seen) by (by rewrite Hrcv1).
    rewrite Hrun. simpl. unfold signal_connect. rewrite Hthis1. simpl.
    set (w2 := set_receivers w1 (<[this := {[s]} ∪ seen]> (receivers w1))).
    destruct (IH w2 ({[s]} ∪ seen)) as (w' & Hrun' & Hw' & Hrcv' & Hsig' & Hin & Hout).
    + done.
    + by apply wf_world_set_receivers.
    + done.
    + simpl. apply lookup_insert_eq.
    + apply Forall_forall. intros s' Hs'. rewrite Forall_forall in Hss.
      destruct (Hss s' Hs') as [Hsig'' Hfuel'].
      assert (s' ≠ s) by (intros ->; done).
      unfold w2. rewrite connections_set_receivers. simpl.
      rewrite (Hsigs1 s') by done. rewrite (Hcs1 s') by done. done.
    + exists w'. split_and!.
      * exact Hrun'.
      * exact Hw'.
      * rewrite Hrcv'. simpl. rewrite Hrcv1, insert_insert_eq. f_equal.
        rewrite (comm_L (∪) {[s]} (list_to_set ss)).
        by rewrite (assoc_L (∪)).
      * intros s' Hs'. apply Hsig'. simpl.
        destruct (decide (s' = s)) as [->|Hs's]; [done |]. by rewrite Hsigs1.
      * intros s' Hs'. apply elem_of_cons in Hs' as [->|Hs'].
        -- rewrite (Hout s Hs). unfold w2. by rewrite connections_set_receivers.
        -- assert (s' ≠ s) by (intros ->; done).
           rewrite (Hin s' Hs'). unfold w2. rewrite connections_set_receivers.
           by rewrite (Hcs1 s').
      * intros s' Hs'. apply not_elem_of_cons in Hs' as [Hs's Hs'].
        rewrite (Hout s' Hs'). unfold w2. rewrite connections_set_receivers.
        by apply Hcs1.
Qed.

Lemma has_slots_copy_spec fuel w this hs ms :
  wf_world w → receivers w !! hs = Some ms → receivers w !! this = None →
  (∀ s, s ∈ ms → is_Some (signals w !! s) ∧
                 length (connections w s) +
                   length (filter (targets hs) (connections w s)) < fuel) →
  ∃ w', has_slots_copy fuel w this hs = Ok w' ∧ wf_world w' ∧
        receivers w' = <[this := ms]> (receivers w) ∧
        (∀ s, is_Some (signals w !! s) → is_Some (signals w' !! s)) ∧
        (∀ s, s ∈ ms →
           connections w' s =
             connections w s ++
             (retarget this <$> filter (targets hs) (connections w s))) ∧
        (∀ s, s ∉ ms → connections w' s = connections w s).
Proof.
  intros Hw Hms Hthis Hss. unfold has_slots_copy. rewrite Hms. simpl.
  destruct (has_slots_copy_loop_spec fuel this hs (elements ms) (has_slots_new w this) ∅)
    as (w' & Hrun & Hw' & Hrcv & Hsig & Hin & Hout).
  - intros ->. congruence.
  - by apply wf_world_set_receivers.
  - apply NoDup_elements.
  - simpl. apply lookup_insert_eq.
  - apply Forall_forall. intros s Hs. apply elem_of_elements in Hs.
    unfold has_slots_new. rewrite connections_set_receivers. simpl. auto.
  - exists w'. split_and!; try done.
    + rewrite Hrcv. simpl. rewrite insert_insert_eq, list_to_set_elements_L.
      by rewrite (right_id_L ∅ (∪)).
    + intros s Hs. apply Hin. by apply elem_of_elements.
    + intros s Hs. apply Hout. by rewrite elem_of_elements.
Qed.

Lemma remove_first_app {A : Type} (P : A → Prop) `{∀ x, Decision (P x)} (l k : list A) :
  Exists P l → remove_first P (l ++ k) = remove_first P l ++ k.
Proof.
  induction l as [|x l IH]; intros Hex; simpl.
  - by apply Exists_nil in Hex.
  - destruct (decide (P x)); [done |].
    apply Exists_cons in Hex as [Hex|Hex]; [done |]. by rewrite IH.
Qed.

Lemma filter_none {A : Type} (P : A → Prop) `{∀ x, Decision (P x)} (l : list A) :
  ¬ Exists P l → filter P l = [].
Proof.
  induction l as [|x l IH]; intros Hno; [done |].
  rewrite filter_cons_False by (intros Hx; apply Hno; by left).
  apply IH. intros Hex. apply Hno. by right.
Qed.

(** C6. Copy-constructing receiver [this] from receiver [hs] makes every
    sender of [hs] append, for each of its connections that targets [hs],
    a duplicate with the same handler that targets [this], and registers
    that sender in the sender set of [this]; the sender set of [hs] and
    the connections already there are as before.  A later [emit] of such
    a sender then invokes each handler on [hs] and on [this], and
    [disconnect(hs)] on it takes away a connection to [hs] only: every
    duplicate stays. *)
Theorem has_slots_copy_duplicates_connections {Args : Type} fuel w this hs ms
    (args : Args) :
  wf_world w → receivers w !! hs = Some ms → receivers w !! this = None →
  (∀ s, s ∈ ms →
     is_Some (signals w !! s) ∧ targets_live w s ∧
     length (connections w s) +
       length (filter (targets hs) (connections w s)) < fuel) →
  ∃ w', has_slots_copy fuel w this hs = Ok w' ∧
        receivers w' = <[this := ms]> (receivers w) ∧
        (∀ s, s ∉ ms → connections w' s = connections w s) ∧
        ∀ s, s ∈ ms →
          let dups := retarget this <$> filter (targets hs) (connections w s) in
          connections w' s = connections w s ++ dups ∧
          emit w' s args = Ok (invoke args <$> (connections w s ++ dups)) ∧
          ∃ w'', disconnect w' s hs = Ok w'' ∧
                 connections w'' s =
                   remove_first (targets hs) (connections w s) ++ dups.
Proof.
  intros Hw Hms Hthis Hss.
  assert (Hne : this ≠ hs) by (intros ->; congruence).
  destruct (has_slots_copy_spec fuel w this hs ms Hw Hms Hthis)
    as (w' & Hrun & Hw' & Hrcv & Hsig & Hin & Hout).
  { intros s Hs. destruct (Hss s Hs) as (? & ? & ?). done. }
  exists w'. split_and!; try done.
  intros s Hs dups. destruct (Hss s Hs) as (Hlive & Htl & _).
  destruct (Hsig s Hlive) as [l' Hl'].
  pose proof (Hin s Hs) as Hc. fold dups in Hc.
  assert (Hdups : Forall (targets this) dups).
  { unfold dups. apply Forall_fmap, Forall_forall. by intros c _. }
  split_and!.
  - exact Hc.
  - rewrite <- Hc. apply (emit_spec w' s l' args Hl' (wf_world_signal _ _ _ Hw' Hl')).
    unfold targets_live. rewrite Hc, Hrcv. apply Forall_app. split.
    + eapply Forall_impl; [exact Htl |]. simpl. intros c Hcl.
      apply lookup_insert_is_Some. destruct (decide (this = m_pobject c)); auto.
    + eapply Forall_impl; [exact Hdups |]. simpl. intros c ->.
      rewrite lookup_insert_eq. eauto.
  - assert (Hhs : receivers w' !! hs = Some ms).
    { rewrite Hrcv. by rewrite lookup_insert_ne. }
    assert (Hnodup : ¬ Exists (targets hs) dups).
    { intros Hex. apply Exists_exists in Hex as (c & Hcin & Ht).
      rewrite Forall_forall in Hdups. specialize (Hdups c Hcin).
      unfold targets in *. congruence. }
    destruct (decide (Exists (targets hs) (connections w s))) as [Hex|Hex].
    + destruct (disconnect_spec w' s hs l' ms Hw' Hl' Hhs) as (w'' & Hrun' & Hc' & _).
      { rewrite Hc. apply Exists_app. by left. }
      exists w''. split; [done |]. rewrite Hc', Hc. by apply remove_first_app.
    + exists w'. split.
      * apply (disconnect_never_connected w' s hs l' Hl' (wf_world_signal _ _ _ Hw' Hl')).
        rewrite Hc. apply Forall_forall. intros c Hcin Ht.
        apply elem_of_app in Hcin as [Hcin|Hcin].
        -- apply Hex, Exists_exists. eauto.
        -- apply Hnodup, Exists_exists. eauto.
      * rewrite Hc. f_equal. symmetry. apply remove_first_none.
        apply Forall_forall. intros c Hcin Ht. apply Hex, Exists_exists. eauto.
Qed.

(** Receiver 22 copied from receiver 20, which signal 10 targets twice. *)
Lemma has_slots_copy_witness :
  ∃ w', has_slots_copy 6 w_two_handlers 22 20 = Ok w' ∧
        senders w' 22 = {[10]} ∧ senders w' 20 = {[10]} ∧
        emit w' 10 7 =
          Ok [Call 20 1 7; Call 30 5 7; Call 20 2 7; Call 22 1 7; Call 22 2 7] ∧
        ∃ w'', disconnect w' 10 20 = Ok w'' ∧
               connections w'' 10 =
                 [Connection 30 5; Connection 20 2; Connection 22 1; Connection 22 2].
Proof.
  destruct (has_slots_copy_duplicates_connections 6 w_two_handlers 22 20 {[10]} 7)
    as (w' & Hrun & Hrcv & _ & Hin).
  - decide_by_computation.
  - vm_compute. reflexivity.
  - vm_compute. reflexivity.
  - intros s Hs. apply elem_of_singleton in Hs. subst s. split_and!.
    + vm_compute. eauto.
    + decide_by_computation.
    + vm_compute. lia.
  - destruct (Hin 10) as (_ & Hemit & w'' & Hdis & Hc'').
    { by apply elem_of_singleton. }
    exists w'. split_and!.
    + exact Hrun.
    + unfold senders. rewrite Hrcv. vm_compute. reflexivity.
    + unfold senders. rewrite Hrcv. vm_compute. reflexivity.
    + exact Hemit.
    + exists w''. split; [exact Hdis | exact Hc''].
Defined.

(** Copying a receiver keeps the registration invariant. *)
Lemma has_slots_copy_consistent fuel w this hs ms :
  wf_world w → consistent w →
  receivers w !! hs = Some ms → receivers w !! this = None →
  (∀ s, s ∈ ms →
     length (connections w s) +
       length (filter (targets hs) (connections w s)) < fuel) →
  ∃ w', has_slots_copy fuel w this hs = Ok w' ∧ consistent w'.
Proof.
  intros Hw [Hreg Hcon] Hms Hthis Hfuel.
  assert (Hshs : senders w hs = ms) by (unfold senders; by rewrite Hms).
  assert (Hlive : ∀ s, s ∈ ms → is_Some (signals w !! s)).
  { intros s Hs. destruct (Hreg s hs) as (c & Hc & _); [by rewrite Hshs |].
    unfold connections in Hc. destruct (signals w !! s); [eauto |].
    by apply elem_of_nil in Hc. }
  destruct (has_slots_copy_spec fuel w this hs ms Hw Hms Hthis)
    as (w' & Hrun & _ & Hrcv & _ & Hin & Hout); [by auto |].
  exists w'. split; [done |].
  assert (Hs_new : ∀ r, senders w' r = if decide (this = r) then ms else senders w r).
  { intros r. unfold senders. rewrite Hrcv. destruct (decide (this = r)) as [<-|Hr].
    - by rewrite lookup_insert_eq.
    - by rewrite lookup_insert_ne. }
  assert (Hfresh : ∀ s c, c ∈ connections w s → m_pobject c ≠ this).
  { intros s c Hc Heq. pose proof (Hcon s c Hc) as Hs.
    unfold senders in Hs. rewrite Heq, Hthis in Hs. by apply elem_of_empty in Hs. }
  assert (Hc_mono : ∀ s c, c ∈ connections w s → c ∈ connections w' s).
  { intros s c Hc. destruct (decide (s ∈ ms)) as [Hs|Hs].
    - rewrite (Hin s Hs). apply elem_of_app. by left.
    - by rewrite (Hout s Hs). }
  split.
  - intros s r Hs. rewrite Hs_new in Hs. destruct (decide (this = r)) as [<-|Hr].
    + destruct (Hreg s hs) as (c & Hc & Ht); [by rewrite Hshs |].
      exists (retarget this c). split; [|done].
      rewrite (Hin s Hs). apply elem_of_app. right.
      apply list_elem_of_fmap. exists c. split; [done |].
      by apply list_elem_of_filter.
    + destruct (Hreg s r Hs) as (c & Hc & Ht). exists c. auto.
  - intros s c Hc.
    assert (Hcases : c ∈ connections w s ∨ (s ∈ ms ∧ m_pobject c = this)).
    { destruct (decide (s ∈ ms)) as [Hs|Hs].
      - rewrite (Hin s Hs) in Hc. apply elem_of_app in Hc as [Hc|Hc]; [by left |].
        apply list_elem_of_fmap in Hc as (c0 & -> & _). by right.
      - rewrite (Hout s Hs) in Hc. by left. }
    rewrite Hs_new. destruct Hcases as [Hold|[Hs ->]].
    + rewrite decide_False by (intros Heq; by apply (Hfresh s c Hold)).
      by apply Hcon.
    + by rewrite decide_True.
Qed.

(** * Further properties of the operations *)

(** ** The sender set of a receiver *)

Lemma set_receivers_same w r ms :
  receivers w !! r = Some ms → set_receivers w (<[r := ms]> (receivers w)) = w.
Proof.
  intros Hms. destruct w as [c s rs b]. unfold set_receivers. simpl in *.
  by rewrite insert_id.
Qed.

(** X1. [signal_connect] and [signal_disconnect] on a live receiver follow
    the set: registering a sender a second time changes nothing,
    unregistering a sender that is not registered changes nothing, and
    unregistering right after registering a sender that was not there
    gives the heap back. *)
Theorem sender_set_registration w r sender ms :
  receivers w !! r = Some ms →
  (∃ w1, signal_connect w r sender = Ok w1 ∧ signal_connect w1 r sender = Ok w1 ∧
         senders w1 r = {[sender]} ∪ ms) ∧
  (sender ∉ ms → signal_disconnect w r sender = Ok w) ∧
  (sender ∉ ms →
     (w1 ←← signal_connect w r sender; signal_disconnect w1 r sender) = Ok w).
Proof.
  intros Hms. split_and!.
  - eexists. split_and!.
    + unfold signal_connect. rewrite Hms. reflexivity.
    + unfold signal_connect. simpl. rewrite lookup_insert_eq. simpl.
      unfold set_receivers. simpl. rewrite insert_insert_eq.
      by rewrite (assoc_L (∪)), (idemp_L (∪)).
    + unfold senders. simpl. by rewrite lookup_insert_eq.
  - intros Hout. unfold signal_disconnect. rewrite Hms. simpl. f_equal.
    rewrite difference_disjoint_L by (by apply disjoint_singleton_r).
    by apply set_receivers_same.
  - intros Hout. unfold signal_connect. rewrite Hms. simpl.
    unfold signal_disconnect. simpl. rewrite lookup_insert_eq. simpl. f_equal.
    unfold set_receivers. simpl. rewrite insert_insert_eq.
    rewrite difference_union_distr_l_L, difference_diag_L, (left_id_L ∅ (∪)).
    rewrite difference_disjoint_L by (by apply disjoint_singleton_r).
    by apply (set_receivers_same w r ms).
Qed.

(** Receiver 30 of [w_two_signals] and signal 11, which it does not list. *)
Lemma sender_set_registration_witness :
  (∃ w1, signal_connect w_two_signals 30 11 = Ok w1 ∧
         signal_connect w1 30 11 = Ok w1 ∧ senders w1 30 = {[11]} ∪ {[10]}) ∧
  signal_disconnect w_two_signals 30 11 = Ok w_two_signals ∧
  (w1 ←← signal_connect w_two_signals 30 11; signal_disconnect w1 30 11) =
    Ok w_two_signals.
Proof.
  destruct (sender_set_registration w_two_signals 30 11 {[10]}) as (H1 & H2 & H3).
  - vm_compute. reflexivity.
  - split_and!.
    + exact H1.
    + apply H2. decide_by_computation.
    + apply H3. decide_by_computation.
Defined.

(** ** [slot_duplicate]: equal targets, and no matching connection *)

(** X2. [slot_duplicate(target, target)] on a signal that holds a
    connection to [target] never returns: every duplicate it appends
    targets [target] again and is duplicated in its turn, whatever the
    budget. *)
Theorem slot_duplicate_onto_itself_diverges fuel w this target :
  wf_world w → is_Some (signals w !! this) →
  Exists (targets target) (connections w this) →
  slot_duplicate fuel w this target target = OutOfFuel.
Proof.
  intros Hw [[cells f] Hl] Hex.
  rewrite (connections_lookup _ _ _ Hl) in Hex.
  unfold slot_duplicate, m_connected_slots. rewrite Hl. simpl.
  by apply (slot_duplicate_from_same_target fuel w this target [] cells f).
Qed.

(** Signal 10 of [w_one] holds a connection to receiver 20. *)
Lemma slot_duplicate_onto_itself_witness :
  slot_duplicate 1000 w_one 10 20 20 = OutOfFuel.
Proof.
  apply slot_duplicate_onto_itself_diverges.
  - decide_by_computation.
  - vm_compute. eauto.
  - decide_by_computation.
Defined.

Lemma slot_duplicate_from_no_match w this oldtarget newtarget f
    (rest : list (StdList.node * ptr)) :
  ∀ fuel pre,
    signals w !! this = Some (StdList.Mk (pre ++ rest) f) →
    NoDup (pre ++ rest).*1 →
    Forall (λ p, is_Some (conns w !! p)) rest.*2 →
    Forall (λ c, ¬ targets oldtarget c) (omap (λ p, conns w !! p) rest.*2) →
    length rest < fuel →
    slot_duplicate_from fuel w this oldtarget newtarget (StdList.first_of rest) = Ok w.
Proof.
  induction rest as [|[n p] rest IH]; intros fuel pre Hl Hnd Hlive Hno Hfuel.
  { destruct fuel; [lia | done]. }
  destruct fuel as [|fuel]; [lia |].
  destruct (NoDup_middle_notin pre rest n p Hnd) as [Hnpre _].
  rewrite fmap_cons in Hlive. apply Forall_cons in Hlive as [[c Hc] Hlive].
  csimpl in Hno. simpl in Hc. rewrite Hc in Hno.
  apply Forall_cons in Hno as [Ht Hno]. simpl StdList.first_of.
  rewrite (slot_duplicate_from_step fuel w this oldtarget newtarget _ pre n p rest c
             Hl eq_refl Hnpre Hc).
  rewrite decide_False by done.
  apply (IH fuel (pre ++ [(n, p)])); try done.
  - by rewrite <- app_assoc.
  - by rewrite <- app_assoc.
  - simpl in Hfuel. lia.
Qed.

(** X3. On a signal without a connection to [oldtarget],
    [slot_duplicate] returns the heap as it was: nothing is allocated or
    appended, also when [newtarget] is [oldtarget]. *)
Theorem slot_duplicate_without_match fuel w this oldtarget newtarget :
  wf_world w → is_Some (signals w !! this) →
  Forall (λ c, ¬ targets oldtarget c) (connections w this) →
  length (connections w this) < fuel →
  slot_duplicate fuel w this oldtarget newtarget = Ok w.
Proof.
  intros Hw [[cells f] Hl] Hno Hfuel.
  pose proof (wf_world_signal _ _ _ Hw Hl) as ([Hnd _] & _ & Hlive).
  rewrite (connections_lookup _ _ _ Hl) in Hno, Hfuel.
  unfold StdList.values in Hno, Hfuel, Hlive. simpl in Hno, Hfuel, Hlive, Hnd.
  rewrite (omap_lookup_live_length _ _ Hlive), length_fmap in Hfuel.
  unfold slot_duplicate, m_connected_slots. rewrite Hl. simpl.
  by apply (slot_duplicate_from_no_match w this oldtarget newtarget f cells fuel []).
Qed.

(** Signal 11 of [w_two_signals] has no connection to receiver 30. *)
Lemma slot_duplicate_without_match_witness :
  slot_duplicate 2 w_two_signals 11 30 30 = Ok w_two_signals.
Proof.
  apply slot_duplicate_without_match.
  - decide_by_computation.
  - vm_compute. eauto.
  - decide_by_computation.
  - vm_compute. lia.
Defined.

(** ** [slot_disconnect] and the teardown of a receiver remove nothing *)

Lemma slot_disconnect_from_Ok this pslot fuel :
  ∀ w it w', slot_disconnect_from fuel w this pslot it = Ok w' → w' = w.
Proof.
  induction fuel as [|fuel IH]; intros w it w' Hrun; [done |].
  simpl in Hrun. destruct it as [n|]; [| by injection Hrun].
  apply obind_Ok in Hrun as (l & Hl & Hrun).
  apply obind_Ok in Hrun as (slot & Hslot & Hrun).
  apply obind_Ok in Hrun as (d & Hd & Hrun).
  apply obind_Ok in Hrun as (w1 & Hw1 & Hrun).
  apply obind_Ok in Hrun as (l1 & Hl1 & Hrun).
  apply obind_Ok in Hrun as (it' & Hit & Hrun).
  destruct (decide (d = pslot)) as [Hd'|Hd'].
  - apply obind_Ok in Hw1 as (w0 & Hw0 & Hw1).
    apply obind_Ok in Hw1 as (l' & Hl' & Hw1). injection Hw1 as <-.
    unfold m_connected_slots in Hl1. simpl in Hl1.
    rewrite lookup_insert_eq in Hl1. injection Hl1 as <-.
    unfold StdList.erase in Hl'.
    destruct (StdList.value_at n (StdList.cells l)); [|done].
    injection Hl' as <-. simpl in Hit.
    by rewrite (after_None _ n (erased_node_gone _ n)) in Hit.
  - injection Hw1 as <-. by apply IH in Hrun.
Qed.

Lemma slot_disconnect_from_Ok_no_match w this pslot f w'
    (rest : list (StdList.node * ptr)) :
  ∀ fuel pre,
    signals w !! this = Some (StdList.Mk (pre ++ rest) f) →
    NoDup (pre ++ rest).*1 →
    Forall (λ p, is_Some (conns w !! p)) rest.*2 →
    slot_disconnect_from fuel w this pslot (StdList.first_of rest) = Ok w' →
    Forall (λ c, ¬ targets pslot c) (omap (λ p, conns w !! p) rest.*2).
Proof.
  induction rest as [|[n p] rest IH]; intros fuel pre Hl Hnd Hlive Hrun.
  { constructor. }
  destruct fuel as [|fuel]; [done |].
  destruct (NoDup_middle_notin pre rest n p Hnd) as [Hnpre _].
  rewrite fmap_cons in Hlive. apply Forall_cons in Hlive as [[c Hc] Hlive].
  simpl in Hc. csimpl. rewrite Hc. simpl StdList.first_of in Hrun.
  destruct (decide (targets pslot c)) as [Ht|Ht].
  - by rewrite (slot_disconnect_from_step_match fuel w this pslot _ pre n p rest c
                  Hl eq_refl Hnpre Hc Ht) in Hrun.
  - rewrite (slot_disconnect_from_step_other fuel w this pslot _ pre n p rest c
               Hl eq_refl Hnpre Hc Ht) in Hrun.
    constructor; [done |].
    apply (IH fuel (pre ++ [(n, p)])); try done.
    + by rewrite <- app_assoc.
    + by rewrite <- app_assoc.
Qed.

Lemma slot_disconnect_Ok fuel w this pslot w' :
  slot_disconnect fuel w this pslot = Ok w' →
  w' = w ∧ (wf_world w → Forall (λ c, ¬ targets pslot c) (connections w this)).
Proof.
  unfold slot_disconnect. intros Hrun. apply obind_Ok in Hrun as (l & Hl & Hrun).
  unfold m_connected_slots in Hl. destruct (signals w !! this) as [l0|] eqn:Hl0; [|done].
  injection Hl as <-. split.
  - by apply slot_disconnect_from_Ok in Hrun.
  - intros Hw. destruct l0 as [cells f].
    pose proof (wf_world_signal _ _ _ Hw Hl0) as ([Hnd _] & _ & Hlive).
    rewrite (connections_lookup _ _ _ Hl0).
    by apply (slot_disconnect_from_Ok_no_match w this pslot f w' cells fuel []).
Qed.

(** X4. Whenever [slot_disconnect] returns, the heap is the one it was
    given, and (the list being well formed) no connection of the signal
    targeted the receiver: the call never removes a connection. *)
Theorem slot_disconnect_never_removes fuel w this pslot w' :
  slot_disconnect fuel w this pslot = Ok w' →
  w' = w ∧ (wf_world w → Forall (λ c, ¬ targets pslot c) (connections w this)).
Proof. apply slot_disconnect_Ok. Qed.

(** Signal 11 of [w_two_signals] has no connection to receiver 30. *)
Lemma slot_disconnect_never_removes_witness :
  slot_disconnect 2 w_two_signals 11 30 = Ok w_two_signals ∧
  Forall (λ c, ¬ targets 30 c) (connections w_two_signals 11).
Proof.
  assert (Hrun : slot_disconnect 2 w_two_signals 11 30 = Ok w_two_signals).
  { vm_compute. reflexivity. }
  destruct (slot_disconnect_never_removes 2 w_two_signals 11 30 w_two_signals Hrun)
    as [_ Hno].
  split; [exact Hrun |]. apply Hno. decide_by_computation.
Defined.

Lemma has_slots_disconnect_all_loop_Ok fuel this (ss : list ptr) :
  ∀ w w', has_slots_disconnect_all_loop fuel w this ss = Ok w' →
          w' = w ∧ Forall (λ s, slot_disconnect fuel w s this = Ok w) ss.
Proof.
  induction ss as [|s ss IH]; intros w w' Hrun; simpl in Hrun.
  - injection Hrun as <-. split; [done | constructor].
  - apply obind_Ok in Hrun as (w1 & Hs & Hrun).
    destruct (slot_disconnect_Ok _ _ _ _ _ Hs) as [-> _].
    destruct (IH _ _ Hrun) as [-> Hss]. split; [done |]. by constructor.
Qed.

(** The heap the destructor of a receiver returns, when it returns. *)
Lemma has_slots_destroy_Ok fuel w this w' :
  has_slots_destroy fuel w this = Ok w' →
  w' = set_receivers w (delete this (receivers w)) ∧
  (wf_world w →
     ∀ s, s ∈ senders w this → Forall (λ c, ¬ targets this c) (connections w s)) ∧
  (wf_world w → senders_have_connection w → senders w this = ∅).
Proof.
  unfold has_slots_destroy. intros Hrun.
  apply obind_Ok in Hrun as (w1 & Hall & Hrun). injection Hrun as <-.
  unfold has_slots_disconnect_all in Hall.
  apply obind_Ok in Hall as (ms & Hms & Hall).
  apply obind_Ok in Hall as (w0 & Hloop & Hall).
  apply obind_Ok in Hall as (ms0 & _ & Hall). injection Hall as <-.
  destruct (has_slots_disconnect_all_loop_Ok _ _ _ _ _ Hloop) as [-> Hss].
  unfold deref in Hms. destruct (receivers w !! this) as [ms'|] eqn:Hthis; [|done].
  injection Hms as <-.
  assert (Hno : wf_world w → ∀ s, s ∈ senders w this →
                Forall (λ c, ¬ targets this c) (connections w s)).
  { intros Hw s Hs. unfold senders in Hs. rewrite Hthis in Hs. simpl in Hs.
    rewrite Forall_forall in Hss.
    assert (Hrun : slot_disconnect fuel w s this = Ok w).
    { apply Hss. by apply elem_of_elements. }
    destruct (slot_disconnect_Ok _ _ _ _ _ Hrun) as [_ Hs']. auto. }
  split_and!; try done.
  - unfold set_receivers. simpl. by rewrite delete_insert_eq.
  - intros Hw Hreg. apply leibniz_equiv. apply elem_of_equiv_empty. intros s Hs.
    destruct (Hreg s this Hs) as (c & Hc & Ht).
    pose proof (Hno Hw s Hs) as Hall. rewrite Forall_forall in Hall.
    by apply (Hall c Hc).
Qed.

(** X5. Whenever the destructor of a receiver returns, no connection
    object and no list of any signal has changed; only the receiver is
    gone.  It returns only if no registered sender holds a connection to
    the receiver; where every registered sender does hold one, only a
    receiver without senders can be destroyed. *)
Theorem receiver_teardown_removes_no_connection fuel w this w' :
  has_slots_destroy fuel w this = Ok w' →
  conns w' = conns w ∧ signals w' = signals w ∧
  receivers w' = delete this (receivers w) ∧
  (wf_world w →
     ∀ s, s ∈ senders w this → Forall (λ c, ¬ targets this c) (connections w s)) ∧
  (wf_world w → senders_have_connection w → senders w this = ∅).
Proof.
  intros Hrun. destruct (has_slots_destroy_Ok fuel w this w' Hrun) as (-> & Hno & Hempty).
  split_and!; done.
Qed.

(** Receiver 21 of [w_two_handlers] has no sender. *)
Lemma receiver_teardown_witness :
  ∃ w', has_slots_destroy 1 w_two_handlers 21 = Ok w' ∧
        conns w' = conns w_two_handlers ∧ signals w' = signals w_two_handlers ∧
        senders w_two_handlers 21 = ∅.
Proof.
  eexists. split; [vm_compute; reflexivity |].
  destruct (receiver_teardown_removes_no_connection 1 w_two_handlers 21 _ eq_refl)
    as (Hc & Hs & _ & _ & Hempty).
  split_and!; [exact Hc | exact Hs |]. apply Hempty.
  - decide_by_computation.
  - apply consistent_iff_check. decide_by_computation.
Defined.

(** ** A connection to a destroyed receiver *)

Lemma emit_loop_dangling {Args : Type} w (slots : list ptr) (args : Args) :
  Forall (λ p, is_Some (conns w !! p)) slots →
  Exists (λ c, receivers w !! m_pobject c = None) (omap (λ p, conns w !! p) slots) →
  emit_loop w slots args = UB.
Proof.
  induction 1 as [|p ps [c Hc] _ IH]; csimpl; intros Hex.
  - by apply Exists_nil in Hex.
  - rewrite Hc in Hex. unfold connection_emit. rewrite Hc. simpl.
    destruct (receivers w !! m_pobject c) as [ms|] eqn:Hms; [|done]. simpl.
    apply Exists_cons in Hex as [Hex|Hex]; [congruence |].
    by rewrite (IH Hex).
Qed.

Lemma signal_disconnect_all_loop_dangling this (slots : list ptr) :
  ∀ w,
    NoDup slots →
    Forall (λ p, is_Some (conns w !! p)) slots →
    Exists (λ c, receivers w !! m_pobject c = None) (omap (λ p, conns w !! p) slots) →
    signal_disconnect_all_loop w this slots = UB.
Proof.
  induction slots as [|p ps IH]; intros w Hnd Hlive Hex; csimpl.
  - by apply Exists_nil in Hex.
  - apply NoDup_cons in Hnd as [Hp Hnd].
    apply Forall_cons in Hlive as [[c Hc] Hlive].
    csimpl in Hex. rewrite Hc in Hex.
    unfold getdest. rewrite Hc. simpl. unfold signal_disconnect.
    destruct (receivers w !! m_pobject c) as [ms|] eqn:Hms; [|done]. simpl.
    unfold delete_connection. simpl. rewrite Hc. simpl.
    apply Exists_cons in Hex as [Hex|Hex]; [congruence |].
    assert (Hagree : Forall (λ q, delete p (conns w) !! q = conns w !! q) ps).
    { apply Forall_forall. intros q Hq. apply lookup_delete_ne. by intros ->. }
    apply IH.
    + done.
    + rewrite Forall_forall in Hagree, Hlive |- *. intros q Hq. simpl.
      rewrite (Hagree q Hq). auto.
    + simpl. rewrite (omap_lookup_agree _ _ _ Hagree).
      eapply Exists_impl; [exact Hex |]. simpl. intros c' Hc'.
      rewrite lookup_insert_ne; [done |]. intros Heq. congruence.
Qed.

(** X6. A signal that holds a connection to a destroyed receiver can
    neither be emitted nor torn down: [emit], [disconnect_all] and the
    destructor of the signal are all undefined. *)
Theorem dangling_target_is_undefined {Args : Type} w this (args : Args) :
  wf_world w → is_Some (signals w !! this) → ¬ targets_live w this →
  emit w this args = UB ∧
  signal_disconnect_all w this = UB ∧
  signal_destroy w this = UB.
Proof.
  intros Hw [l Hl] Hdead.
  pose proof (wf_world_signal _ _ _ Hw Hl) as (_ & Hnd & Hlive).
  assert (Hex : Exists (λ c, receivers w !! m_pobject c = None)
                       (omap (λ p, conns w !! p) (StdList.values l))).
  { unfold targets_live in Hdead. rewrite (connections_lookup _ _ _ Hl) in Hdead.
    apply not_Forall_Exists in Hdead; [| apply _].
    eapply Exists_impl; [exact Hdead |]. simpl. intros c Hc.
    by apply eq_None_not_Some. }
  assert (Hall : signal_disconnect_all w this = UB).
  { unfold signal_disconnect_all, m_connected_slots. rewrite Hl. simpl.
    by rewrite (signal_disconnect_all_loop_dangling this _ w Hnd Hlive Hex). }
  split_and!.
  - unfold emit, m_connected_slots. rewrite Hl. simpl.
    by apply emit_loop_dangling.
  - exact Hall.
  - unfold signal_destroy. by rewrite Hall.
Qed.

(** Signal 10 of [w_dangling] holds a connection to receiver 20, which is
    not alive. *)
Lemma dangling_target_witness :
  emit w_dangling 10 7 = UB ∧
  signal_disconnect_all w_dangling 10 = UB ∧
  signal_destroy w_dangling 10 = UB.
Proof.
  apply dangling_target_is_undefined.
  - decide_by_computation.
  - vm_compute. eauto.
  - decide_by_computation.
Defined.

(** ** [connect] and the copy of a receiver keep the heap in order *)

Lemma slots_of_live w s p :
  wf_world w → p ∈ slots_of w s → is_Some (conns w !! p).
Proof.
  intros Hw Hp. unfold slots_of in Hp.
  destruct (signals w !! s) as [l|] eqn:Hl; [| by apply elem_of_nil in Hp].
  destruct (wf_world_signal _ _ _ Hw Hl) as (_ & _ & Hlive).
  rewrite Forall_forall in Hlive. auto.
Qed.

Lemma owns_exclusively_lookup w this s l :
  owns_exclusively w this → signals w !! s = Some l → s ≠ this →
  ∀ p, p ∈ StdList.values l → p ∉ slots_of w this.
Proof.
  intros Hown Hl Hne p Hp. destruct (Hown s l Hl) as [->|Hall]; [done |].
  rewrite Forall_forall in Hall. auto.
Qed.

Lemma alloc_push_exclusive w this l c :
  wf_world w → signals w !! this = Some l → exclusive w →
  exclusive (alloc_push w this l c).
Proof.
  intros Hw Hl Hex.
  assert (Hslots_this : slots_of (alloc_push w this l c) this = slots_of w this ++ [brk w]).
  { unfold slots_of. simpl. rewrite lookup_insert_eq, Hl.
    unfold StdList.values, StdList.push_back. simpl. by rewrite fmap_app. }
  assert (Hslots_other : ∀ s, s ≠ this →
            slots_of (alloc_push w this l c) s = slots_of w s).
  { intros s Hs. unfold slots_of. simpl. by rewrite lookup_insert_ne. }
  assert (Hfresh : ∀ s, brk w ∉ slots_of w s).
  { intros s Hin. pose proof (wf_world_below _ _ Hw (slots_of_live _ _ _ Hw Hin)). lia. }
  intros s0 l0 Hl0 s l' Hl'. destruct (decide (s = s0)) as [|Hne]; [by left | right].
  simpl in Hl0, Hl'. apply Forall_forall. intros p Hp.
  destruct (decide (s = this)) as [->|Hs].
  - rewrite lookup_insert_eq in Hl'. injection Hl' as <-.
    rewrite lookup_insert_ne in Hl0 by done.
    rewrite (Hslots_other s0) by done.
    unfold StdList.values, StdList.push_back in Hp. simpl in Hp.
    rewrite fmap_app in Hp. apply elem_of_app in Hp as [Hp|Hp].
    + by apply (owns_exclusively_lookup w s0 this l (Hex s0 l0 Hl0) Hl).
    + apply list_elem_of_singleton in Hp as ->. apply Hfresh.
  - rewrite lookup_insert_ne in Hl' by done.
    assert (Hplive : p ∈ slots_of w s) by (unfold slots_of; by rewrite Hl').
    destruct (decide (s0 = this)) as [->|Hs0].
    + rewrite Hslots_this. intros Hin. apply elem_of_app in Hin as [Hin|Hin].
      * by apply (owns_exclusively_lookup w this s l' (Hex this l Hl) Hl' Hs p).
      * apply list_elem_of_singleton in Hin as ->. by apply (Hfresh s).
    + rewrite lookup_insert_ne in Hl0 by done. rewrite (Hslots_other s0) by done.
      by apply (owns_exclusively_lookup w s0 s l' (Hex s0 l0 Hl0) Hl').
Qed.

Lemma exclusive_set_receivers w rs : exclusive w → exclusive (set_receivers w rs).
Proof. done. Qed.

(** Taking pointers out of lists keeps ownership exclusive. *)
Lemma exclusive_shrink w w' :
  (∀ s p, p ∈ slots_of w' s → p ∈ slots_of w s) →
  exclusive w → exclusive w'.
Proof.
  intros Hsub Hex s0 l0 Hl0 s l' Hl'.
  destruct (decide (s = s0)) as [|Hne]; [by left | right].
  apply Forall_forall. intros p Hp Hin.
  assert (Hps : p ∈ slots_of w s).
  { apply Hsub. unfold slots_of. by rewrite Hl'. }
  apply Hsub in Hin.
  destruct (signals w !! s0) as [l0w|] eqn:Hl0w;
    [| unfold slots_of in Hin; rewrite Hl0w in Hin; by apply elem_of_nil in Hin].
  destruct (signals w !! s) as [lsw|] eqn:Hlsw;
    [| unfold slots_of in Hps; rewrite Hlsw in Hps; by apply elem_of_nil in Hps].
  unfold slots_of in Hps. rewrite Hlsw in Hps.
  by apply (owns_exclusively_lookup w s0 s lsw (Hex s0 l0w Hl0w) Hlsw Hne p Hps).
Qed.

(** Whenever the loop of [slot_duplicate] returns, it has kept the heap
    well formed and ownership exclusive. *)
Lemma slot_duplicate_from_keeps this oldtarget newtarget fuel :
  ∀ w it w',
    wf_world w → exclusive w →
    slot_duplicate_from fuel w this oldtarget newtarget it = Ok w' →
    wf_world w' ∧ exclusive w'.
Proof.
  induction fuel as [|fuel IH]; intros w it w' Hw Hex Hrun; [done |].
  simpl in Hrun. destruct it as [n|]; [| by injection Hrun as <-].
  apply obind_Ok in Hrun as (l & Hl & Hrun).
  apply obind_Ok in Hrun as (slot & _ & Hrun).
  apply obind_Ok in Hrun as (d & _ & Hrun).
  apply obind_Ok in Hrun as (w1 & Hw1 & Hrun).
  apply obind_Ok in Hrun as (l1 & _ & Hrun).
  apply obind_Ok in Hrun as (it' & _ & Hrun).
  unfold m_connected_slots in Hl.
  destruct (signals w !! this) as [l0|] eqn:Hl0; [|done]. injection Hl as <-.
  destruct (decide (d = oldtarget)) as [Hd|Hd].
  - apply obind_Ok in Hw1 as (pw & Hpw & Hw1).
    unfold duplicate in Hpw. apply obind_Ok in Hpw as (c & _ & Hpw).
    injection Hpw as <-.
    unfold push_back_slot, m_connected_slots in Hw1. simpl in Hw1.
    rewrite Hl0 in Hw1. simpl in Hw1. injection Hw1 as <-.
    apply (IH _ _ _ (wf_world_alloc_push w this l0 _ Hw Hl0)
                    (alloc_push_exclusive w this l0 _ Hw Hl0 Hex) Hrun).
  - injection Hw1 as <-. by apply (IH _ _ _ Hw Hex Hrun).
Qed.

Lemma has_slots_copy_loop_keeps fuel this hs (ss : list ptr) :
  ∀ w w',
    wf_world w → exclusive w →
    has_slots_copy_loop fuel w this hs ss = Ok w' →
    exclusive w'.
Proof.
  induction ss as [|s ss IH]; intros w w' Hw Hex Hrun; simpl in Hrun.
  - by injection Hrun as <-.
  - apply obind_Ok in Hrun as (w1 & Hdup & Hrun).
    apply obind_Ok in Hrun as (w2 & Hreg & Hrun).
    unfold slot_duplicate in Hdup. apply obind_Ok in Hdup as (l & _ & Hdup).
    destruct (slot_duplicate_from_keeps _ _ _ _ _ _ _ Hw Hex Hdup) as [Hw1 Hex1].
    unfold signal_connect in Hreg. apply obind_Ok in Hreg as (ms & _ & Hreg).
    injection Hreg as <-.
    apply (IH _ _ (wf_world_set_receivers _ _ Hw1) (exclusive_set_receivers _ _ Hex1) Hrun).
Qed.

Lemma has_slots_copy_keeps_exclusive fuel w this hs w' :
  wf_world w → exclusive w → has_slots_copy fuel w this hs = Ok w' → exclusive w'.
Proof.
  intros Hw Hex Hrun. unfold has_slots_copy in Hrun.
  apply obind_Ok in Hrun as (ms & _ & Hrun).
  apply (has_slots_copy_loop_keeps _ _ _ _ _ _
           (wf_world_set_receivers _ _ Hw) (exclusive_set_receivers _ _ Hex) Hrun).
Qed.

(** X7. [connect] on a live signal and a live receiver returns, and keeps
    the heap in order: the lists still hold distinct pointers to live
    connection objects, every connection object is still owned by one
    signal, and the sender sets and the connection lists still agree in
    both directions. *)
Theorem connect_keeps_invariant w this pclass pmemfun :
  wf_world w → is_Some (signals w !! this) → is_Some (receivers w !! pclass) →
  ∃ w', connect w this pclass pmemfun = Ok w' ∧
        wf_world w' ∧
        (exclusive w → exclusive w') ∧
        (consistent w → consistent w').
Proof.
  intros Hw [l Hl] [ms Hms].
  pose proof (connect_spec w this pclass pmemfun l ms Hl Hms) as Hrun.
  eexists. split; [exact Hrun |]. split_and!.
  - apply wf_world_set_receivers. by apply wf_world_alloc_push.
  - intros Hex. apply exclusive_set_receivers. by apply alloc_push_exclusive.
  - intros Hcon. by apply (connect_consistent w this pclass pmemfun _ Hw Hcon Hrun).
Qed.

(** Signal 11 of [w_two_signals] is connected to receiver 30. *)
Lemma connect_keeps_invariant_witness :
  ∃ w', connect w_two_signals 11 30 8 = Ok w' ∧
        wf_world w' ∧ exclusive w' ∧ consistent w'.
Proof.
  destruct (connect_keeps_invariant w_two_signals 11 30 8)
    as (w' & Hrun & Hw' & Hex & Hcon).
  - decide_by_computation.
  - vm_compute. eauto.
  - vm_compute. eauto.
  - exists w'. split_and!.
    + exact Hrun.
    + exact Hw'.
    + apply Hex. decide_by_computation.
    + apply Hcon. apply consistent_iff_check. decide_by_computation.
Defined.

(** X8. Copy-constructing a receiver from a live one, in a well-formed
    heap where the sender sets and the connection lists agree, returns a
    well-formed heap and keeps them in agreement: the copy is registered
    with exactly the signals that hold a connection to it.  Every
    connection object still has one owner. *)
Theorem has_slots_copy_keeps_invariant fuel w this hs ms :
  wf_world w → consistent w →
  receivers w !! hs = Some ms → receivers w !! this = None →
  (∀ s, s ∈ ms →
     length (connections w s) +
       length (filter (targets hs) (connections w s)) < fuel) →
  ∃ w', has_slots_copy fuel w this hs = Ok w' ∧ wf_world w' ∧ consistent w' ∧
        (exclusive w → exclusive w') ∧
        senders w' this = ms ∧
        ∀ s, s ∈ senders w' this ↔ Exists (targets this) (connections w' s).
Proof.
  intros Hw Hcon Hms Hthis Hfuel.
  destruct (has_slots_copy_consistent fuel w this hs ms Hw Hcon Hms Hthis Hfuel)
    as (w' & Hrun & Hcon').
  assert (Hlive : ∀ s, s ∈ ms → is_Some (signals w !! s) ∧
            length (connections w s) +
              length (filter (targets hs) (connections w s)) < fuel).
  { intros s Hs. split; [| by auto]. destruct Hcon as [Hreg _].
    destruct (Hreg s hs) as (c & Hc & _); [unfold senders; by rewrite Hms |].
    unfold connections in Hc. destruct (signals w !! s); [eauto |].
    by apply elem_of_nil in Hc. }
  destruct (has_slots_copy_spec fuel w this hs ms Hw Hms Hthis Hlive)
    as (w'' & Hrun' & Hw'' & Hrcv & _).
  rewrite Hrun in Hrun'. injection Hrun' as <-.
  exists w'. split_and!; try done.
  - intros Hex. by apply (has_slots_copy_keeps_exclusive fuel w this hs).
  - unfold senders. by rewrite Hrcv, lookup_insert_eq.
  - intros s. destruct Hcon' as [Hreg' Hcon']. split.
    + intros Hs. apply Exists_exists. by apply Hreg'.
    + intros Hex. apply Exists_exists in Hex as (c & Hc & Ht).
      unfold targets in Ht. rewrite <- Ht. by apply Hcon'.
Qed.

(** Receiver 22 copied from receiver 20 of [w_two_signals], to which both
    signals are connected. *)
Lemma has_slots_copy_keeps_invariant_witness :
  ∃ w', has_slots_copy 6 w_two_signals 22 20 = Ok w' ∧ wf_world w' ∧
        consistent w' ∧ exclusive w' ∧ senders w' 22 = {[10; 11]}.
Proof.
  destruct (has_slots_copy_keeps_invariant 6 w_two_signals 22 20 {[10; 11]})
    as (w' & Hrun & Hw' & Hcon & Hex & Hs & _).
  - decide_by_computation.
  - apply consistent_iff_check. decide_by_computation.
  - vm_compute. reflexivity.
  - vm_compute. reflexivity.
  - intros s Hs. apply elem_of_union in Hs as [Hs|Hs];
      apply elem_of_singleton in Hs; subst s; vm_compute; lia.
  - exists w'. split_and!; [exact Hrun | exact Hw' | exact Hcon | | exact Hs].
    apply Hex. decide_by_computation.
Defined.

(** ** [disconnect] and the registration invariant *)

Lemma filter_cells_wf {A : Type} (P : StdList.node * A → Prop)
    `{∀ c, Decision (P c)} (l : StdList.t A) :
  StdList.wf l → StdList.wf (StdList.Mk (filter P (StdList.cells l)) (StdList.fresh l)).
Proof.
  intros [Hnd Hlt]. unfold StdList.wf. simpl.
  induction (StdList.cells l) as [|[n x] cs IH]; simpl in *; [done |].
  apply NoDup_cons in Hnd as [Hn Hnd]. apply Forall_cons in Hlt as [Hlt1 Hlt].
  destruct (IH Hnd Hlt) as [IH1 IH2].
  destruct (decide (P (n, x))) as [HP|HP].
  - rewrite filter_cons_True by done. rewrite fmap_cons. simpl. split.
    + apply NoDup_cons. split; [|done]. intros Hin. apply Hn.
      apply list_elem_of_fmap in Hin as (c & -> & Hin).
      apply list_elem_of_filter in Hin as [_ Hin].
      apply list_elem_of_fmap. eauto.
    + by apply Forall_cons.
  - by rewrite filter_cons_False by done.
Qed.

(** The heap [disconnect] returns when a connection matches. *)
Lemma disconnect_result w this pclass l ms :
  wf_world w → signals w !! this = Some l → receivers w !! pclass = Some ms →
  Exists (targets pclass) (connections w this) →
  ∃ slot, slot ∈ StdList.values l ∧
          disconnect w this pclass =
            Ok (World (delete slot (conns w))
                      (<[this := StdList.remove l slot]> (signals w))
                      (<[pclass := ms ∖ {[this]}]> (receivers w))
                      (brk w)).
Proof.
  intros Hw Hl Hms Hex.
  pose proof (wf_world_signal _ _ _ Hw Hl) as (_ & Hnd & Hlive).
  rewrite (connections_lookup _ _ _ Hl) in Hex.
  destruct (first_match_split _ _ _ Hlive Hex)
    as (pre & slot & c & post & Hvs & Hc & Ht & Hpre).
  exists slot. split.
  - rewrite Hvs. apply elem_of_app. right. left.
  - rewrite Hvs in Hlive. apply Forall_app in Hlive as [Hlpre _].
    unfold disconnect, m_connected_slots. rewrite Hl. simpl. rewrite Hvs.
    by apply (disconnect_loop_match w this pclass pre post slot c l ms).
Qed.

Lemma disconnect_result_wf w this l slot rs :
  wf_world w → owns_exclusively w this → signals w !! this = Some l →
  slot ∈ StdList.values l →
  wf_world (World (delete slot (conns w))
                  (<[this := StdList.remove l slot]> (signals w)) rs (brk w)).
Proof.
  intros Hw Hown Hl Hslot. pose proof Hw as [Hc Hs]. split; simpl.
  - by apply map_Forall_delete.
  - intros s l' Hl'. destruct (decide (s = this)) as [->|Hne].
    + rewrite lookup_insert_eq in Hl'. injection Hl' as <-.
      destruct (Hs _ _ Hl) as (Hwf & Hnd & Hlive). split_and!.
      * by apply filter_cells_wf.
      * rewrite values_remove. by apply NoDup_filter.
      * rewrite values_remove. apply Forall_forall. intros p Hp.
        apply list_elem_of_filter in Hp as [Hne Hp]. simpl.
        rewrite lookup_delete_ne by done. rewrite Forall_forall in Hlive. auto.
    + rewrite lookup_insert_ne in Hl' by done.
      destruct (Hs _ _ Hl') as (Hwf & Hnd & Hlive). split_and!; [done | done |].
      apply Forall_forall. intros p Hp. simpl. rewrite lookup_delete_ne.
      * rewrite Forall_forall in Hlive. auto.
      * intros <-. apply (owns_exclusively_lookup w this s l' Hown Hl' Hne slot Hp).
        unfold slots_of. by rewrite Hl.
Qed.

Lemma remove_first_elem {A : Type} (P : A → Prop) `{∀ x, Decision (P x)}
    (l : list A) (c : A) :
  c ∈ remove_first P l → c ∈ l.
Proof.
  induction l as [|x l IH]; simpl; [done |].
  destruct (decide (P x)); intros Hc.
  - by right.
  - apply elem_of_cons in Hc as [->|Hc]; [left | right; auto].
Qed.

Lemma remove_first_keeps {A : Type} (P : A → Prop) `{∀ x, Decision (P x)}
    (l : list A) (c : A) :
  c ∈ l → ¬ P c → c ∈ remove_first P l.
Proof.
  induction l as [|x l IH]; simpl; intros Hc Hn; [done |].
  apply elem_of_cons in Hc as [->|Hc].
  - rewrite decide_False by done. left.
  - destruct (decide (P x)); [done |]. right. auto.
Qed.

Lemma filter_length_0 {A : Type} (P : A → Prop) `{∀ x, Decision (P x)} (l : list A) :
  length (filter P l) = 0 → Forall (λ y, ¬ P y) l.
Proof.
  induction l as [|x l IH]; [constructor |].
  destruct (decide (P x)) as [Hx|Hx].
  - rewrite filter_cons_True by done. simpl. lia.
  - rewrite filter_cons_False by done. intros Hlen. constructor; auto.
Qed.

Lemma remove_first_single {A : Type} (P : A → Prop) `{∀ x, Decision (P x)}
    (l : list A) :
  length (filter P l) = 1 → Forall (λ y, ¬ P y) (remove_first P l).
Proof.
  induction l as [|x l IH]; simpl; [constructor |].
  destruct (decide (P x)) as [Hx|Hx].
  - rewrite filter_cons_True by done. simpl. intros Hlen.
    apply (filter_length_0 P). lia.
  - rewrite filter_cons_False by done. intros Hlen. constructor; auto.
Qed.

Lemma connections_after_delete w this l slot rs s :
  wf_world w → owns_exclusively w this → signals w !! this = Some l →
  slot ∈ StdList.values l → s ≠ this →
  connections (World (delete slot (conns w))
                     (<[this := StdList.remove l slot]> (signals w)) rs (brk w)) s
    = connections w s.
Proof.
  intros Hw Hown Hl Hslot Hne. unfold connections. simpl.
  rewrite lookup_insert_ne by done.
  destruct (signals w !! s) as [l'|] eqn:Hl'; [|done].
  apply omap_lookup_agree, Forall_forall. intros p Hp.
  apply lookup_delete_ne. intros <-.
  apply (owns_exclusively_lookup w this s l' Hown Hl' Hne slot Hp).
  unfold slots_of. by rewrite Hl.
Qed.

(** [disconnect] of a receiver the signal is connected to, in a heap in
    order. *)
Lemma disconnect_in_order w this pclass :
  wf_world w → owns_exclusively w this → consistent w →
  is_Some (signals w !! this) →
  Exists (targets pclass) (connections w this) →
  ∃ w', disconnect w this pclass = Ok w' ∧ wf_world w' ∧
        connections w' this = remove_first (targets pclass) (connections w this) ∧
        (∀ s, s ≠ this → connections w' s = connections w s) ∧
        (exclusive w → exclusive w') ∧
        (consistent w' ↔
           length (filter (targets pclass) (connections w this)) = 1).
Proof.
  intros Hw Hown [Hreg Hcon] [l Hl] Hex.
  assert (Hin : this ∈ senders w pclass).
  { apply Exists_exists in Hex as (c & Hc & Ht). unfold targets in Ht.
    rewrite <- Ht. by apply Hcon. }
  destruct (receivers w !! pclass) as [ms|] eqn:Hms;
    [| unfold senders in Hin; rewrite Hms in Hin; by apply elem_of_empty in Hin].
  assert (Hsms : senders w pclass = ms) by (unfold senders; by rewrite Hms).
  destruct (disconnect_result w this pclass l ms Hw Hl Hms Hex) as (slot & Hslot & Hrun).
  destruct (disconnect_spec w this pclass l ms Hw Hl Hms Hex) as (w' & Hrun' & Hc_this & _).
  rewrite Hrun in Hrun'. injection Hrun' as Hw'.
  assert (Hc_other : ∀ s, s ≠ this → connections w' s = connections w s).
  { intros s Hs. rewrite <- Hw'. by apply connections_after_delete. }
  assert (Hs_new : ∀ r, senders w' r =
                        if decide (pclass = r) then ms ∖ {[this]} else senders w r).
  { intros r. rewrite <- Hw'. unfold senders. simpl.
    destruct (decide (pclass = r)) as [<-|Hr].
    - by rewrite lookup_insert_eq.
    - by rewrite lookup_insert_ne. }
  exists w'. split_and!.
  - by rewrite <- Hw'.
  - rewrite <- Hw'. by apply disconnect_result_wf.
  - exact Hc_this.
  - exact Hc_other.
  - rewrite <- Hw'. apply exclusive_shrink.
    + intros s p. unfold slots_of. simpl.
      destruct (decide (s = this)) as [->|Hs].
      * rewrite lookup_insert_eq, Hl, values_remove. intros Hp.
        by apply list_elem_of_filter in Hp as [_ Hp].
      * by rewrite lookup_insert_ne.
  - split.
    + intros Hcon'.
      destruct (decide (length (filter (targets pclass) (connections w this)) = 1))
        as [|Hlen]; [done | exfalso].
      assert (Hpos : 0 < length (filter (targets pclass) (connections w this))).
      { apply Exists_exists in Hex as (c & Hc & Ht).
        assert (Hcf : c ∈ filter (targets pclass) (connections w this))
          by (by apply list_elem_of_filter).
        destruct (filter (targets pclass) (connections w this));
          [by apply elem_of_nil in Hcf | simpl; lia]. }
      destruct (disconnect_with_connection_left w this pclass ms Hw)
        as (w'' & Hrun'' & _ & _ & Hbad); [eauto | done | lia |].
      rewrite Hrun in Hrun''. injection Hrun'' as Hw''.
      apply Hbad. by rewrite <- Hw'', Hw'.
    + intros Hlen.
      pose proof (remove_first_single (targets pclass) _ Hlen) as Hnone.
      rewrite <- Hc_this in Hnone. rewrite Forall_forall in Hnone.
      split.
      * intros s r Hs. rewrite Hs_new in Hs.
        destruct (decide (pclass = r)) as [<-|Hr].
        -- apply elem_of_difference in Hs as [Hs Hne].
           assert (s ≠ this) by (intros ->; apply Hne; by apply elem_of_singleton).
           destruct (Hreg s pclass) as (c & Hc & Ht); [by rewrite Hsms |].
           exists c. by rewrite Hc_other.
        -- destruct (Hreg s r Hs) as (c & Hc & Ht). exists c. split; [|done].
           destruct (decide (s = this)) as [->|Hne].
           ++ rewrite Hc_this. apply remove_first_keeps; [done |].
              unfold targets in *. congruence.
           ++ by rewrite Hc_other.
      * intros s c Hc. rewrite Hs_new.
        destruct (decide (s = this)) as [->|Hne].
        -- pose proof (Hnone c Hc) as Hnt. unfold targets in Hnt.
           rewrite decide_False by done. apply Hcon.
           rewrite Hc_this in Hc. by apply remove_first_elem in Hc.
        -- rewrite Hc_other in Hc by done. pose proof (Hcon s c Hc) as Hs.
           destruct (decide (pclass = m_pobject c)) as [Heq|]; [|done].
           apply elem_of_difference. split.
           ++ rewrite <- Hsms, Heq. done.
           ++ intros Hs'. by apply elem_of_singleton in Hs'.
Qed.

(** X9. In a heap in order, [disconnect] of a receiver that the signal
    is connected to returns a well-formed heap, takes the first
    connection to the receiver out of the signal and leaves every other
    signal as it was; every connection object still has one owner.  The
    sender sets and the connection lists agree afterwards exactly when
    that connection was the only one the signal held to the receiver. *)
Theorem disconnect_keeps_invariant_iff w this pclass :
  wf_world w → owns_exclusively w this → consistent w →
  is_Some (signals w !! this) →
  Exists (targets pclass) (connections w this) →
  ∃ w', disconnect w this pclass = Ok w' ∧ wf_world w' ∧
        connections w' this = remove_first (targets pclass) (connections w this) ∧
        (∀ s, s ≠ this → connections w' s = connections w s) ∧
        (exclusive w → exclusive w') ∧
        (consistent w' ↔
           length (filter (targets pclass) (connections w this)) = 1).
Proof. apply disconnect_in_order. Qed.

(** Signal 11 of [w_two_signals] holds one connection to receiver 20;
    signal 10 is left as it was. *)
Lemma disconnect_keeps_invariant_witness :
  ∃ w', disconnect w_two_signals 11 20 = Ok w' ∧ wf_world w' ∧
        connections w' 11 = [] ∧
        connections w' 10 = [Connection 20 1; Connection 30 5; Connection 20 2] ∧
        exclusive w' ∧ consistent w'.
Proof.
  destruct (disconnect_keeps_invariant_iff w_two_signals 11 20)
    as (w' & Hrun & Hw' & Hc & Hother & Hex & Hiff).
  - decide_by_computation.
  - decide_by_computation.
  - apply consistent_iff_check. decide_by_computation.
  - vm_compute. eauto.
  - decide_by_computation.
  - exists w'. split_and!.
    + exact Hrun.
    + exact Hw'.
    + exact Hc.
    + apply (Hother 10). lia.
    + apply Hex. decide_by_computation.
    + apply Hiff. vm_compute. reflexivity.
Defined.

(** ** The teardown of a signal *)

(** The loop of [disconnect_all] deletes the connection objects of the
    list and no other. *)
Lemma signal_disconnect_all_loop_conns this (slots : list ptr) :
  ∀ w w', signal_disconnect_all_loop w this slots = Ok w' →
          (∀ q, q ∉ slots → conns w' !! q = conns w !! q) ∧
          (∀ q, q ∈ slots → conns w' !! q = None).
Proof.
  induction slots as [|p ps IH]; intros w w' Hrun; simpl in Hrun.
  - injection Hrun as <-. split; [done |]. intros q Hq. by apply elem_of_nil in Hq.
  - apply obind_Ok in Hrun as (d & _ & Hrun).
    apply obind_Ok in Hrun as (w1 & Hw1 & Hrun).
    apply obind_Ok in Hrun as (w2 & Hw2 & Hrun).
    unfold signal_disconnect in Hw1. apply obind_Ok in Hw1 as (ms & _ & Hw1).
    injection Hw1 as <-.
    unfold delete_connection in Hw2. apply obind_Ok in Hw2 as (c & _ & Hw2).
    injection Hw2 as <-. simpl in Hrun.
    destruct (IH _ _ Hrun) as [Hkeep Hfree]. simpl in Hkeep. split.
    + intros q Hq. apply not_elem_of_cons in Hq as [Hqp Hq].
      rewrite (Hkeep q Hq). by apply lookup_delete_ne.
    + intros q Hq. destruct (decide (q ∈ ps)) as [Hin|Hout]; [by apply Hfree |].
      apply elem_of_cons in Hq as [->|Hq]; [|done].
      rewrite (Hkeep p Hout). apply lookup_delete_eq.
Qed.

(** The destructor of a signal, in a heap in order. *)
Lemma signal_destroy_in_order w this :
  wf_world w → owns_exclusively w this → consistent w →
  is_Some (signals w !! this) →
  ∃ w', signal_destroy w this = Ok w' ∧ wf_world w' ∧
        signals w' !! this = None ∧
        (∀ p, p ∈ slots_of w this → conns w' !! p = None) ∧
        (∀ r, this ∉ senders w' r) ∧
        (∀ s, s ≠ this → connections w' s = connections w s) ∧
        (exclusive w → exclusive w') ∧
        consistent w'.
Proof.
  intros Hw Hown [Hreg Hcon] [l Hl].
  assert (Htl : targets_live w this).
  { apply Forall_forall. intros c Hc. pose proof (Hcon this c Hc) as Hs.
    unfold senders in Hs. destruct (receivers w !! m_pobject c); [eauto |].
    by apply elem_of_empty in Hs. }
  assert (Hslots : slots_of w this = StdList.values l)
    by (unfold slots_of; by rewrite Hl).
  destruct (signal_disconnect_all_spec w this l Hw Hl Htl)
    as (w1 & Hrun & Hsig & _ & Hsend).
  assert (Hconns : (∀ q, q ∉ StdList.values l → conns w1 !! q = conns w !! q) ∧
                   (∀ q, q ∈ StdList.values l → conns w1 !! q = None) ∧
                   brk w1 = brk w).
  { pose proof Hrun as Hrun'. unfold signal_disconnect_all, m_connected_slots in Hrun'.
    rewrite Hl in Hrun'. simpl in Hrun'.
    apply obind_Ok in Hrun' as (w0 & Hloop & Hrest).
    apply obind_Ok in Hrest as (l1 & _ & Hrest). injection Hrest as <-. simpl.
    destruct (signal_disconnect_all_loop_conns _ _ _ _ Hloop) as [Hk Hf].
    pose proof (wf_world_signal _ _ _ Hw Hl) as (_ & Hnd & Hlive).
    destruct (signal_disconnect_all_loop_spec this (StdList.values l) w Hnd Hlive)
      as (w0' & Hloop' & _ & Hbrk & _).
    { unfold targets_live in Htl. by rewrite (connections_lookup _ _ _ Hl) in Htl. }
    rewrite Hloop in Hloop'. injection Hloop' as <-. done. }
  destruct Hconns as (Hkeep & Hfree & Hbrk).
  set (w' := set_signals w1 (delete this (signals w1))).
  assert (Hsig' : ∀ s, s ≠ this → signals w' !! s = signals w !! s).
  { intros s Hs. simpl. rewrite lookup_delete_ne by done.
    rewrite Hsig. by apply lookup_insert_ne. }
  assert (Hforeign : ∀ s l', signals w !! s = Some l' → s ≠ this →
            Forall (λ p, conns w1 !! p = conns w !! p) (StdList.values l')).
  { intros s l' Hl' Hs. apply Forall_forall. intros p Hp. apply Hkeep.
    rewrite <- Hslots. by apply (owns_exclusively_lookup w this s l' Hown Hl' Hs). }
  assert (Hc_other : ∀ s, s ≠ this → connections w' s = connections w s).
  { intros s Hs. unfold connections. rewrite (Hsig' s Hs).
    destruct (signals w !! s) as [l'|] eqn:Hl'; [|done].
    by apply omap_lookup_agree, (Hforeign s l'). }
  assert (Hc_this : connections w' this = []).
  { unfold connections. simpl. by rewrite lookup_delete_eq. }
  assert (Hs_new : ∀ r, senders w' r =
                        if decide (Exists (targets r) (connections w this))
                        then senders w r ∖ {[this]} else senders w r).
  { intros r. exact (Hsend r). }
  assert (Hgone : ∀ r, this ∉ senders w' r).
  { intros r. rewrite Hs_new. case_decide as Hex.
    - intros Hin. apply elem_of_difference in Hin as [_ Hin].
      apply Hin. by apply elem_of_singleton.
    - intros Hin. apply Hex. apply Exists_exists. by apply Hreg. }
  assert (Hs_sub : ∀ s r, s ∈ senders w' r → s ∈ senders w r).
  { intros s r. rewrite Hs_new. case_decide; [|done].
    intros Hin. by apply elem_of_difference in Hin as [Hin _]. }
  exists w'. unfold signal_destroy. rewrite Hrun. simpl. split_and!.
  - done.
  - split.
    + intros p c Hp. change (conns w1 !! p = Some c) in Hp.
      change (p < brk w1). rewrite Hbrk.
      destruct (decide (p ∈ StdList.values l)) as [Hin|Hout].
      * pose proof (eq_trans (eq_sym (Hfree p Hin)) Hp) as Hnone. discriminate Hnone.
      * destruct Hw as [Hbelow _]. apply (Hbelow p c).
        exact (eq_trans (eq_sym (Hkeep p Hout)) Hp).
    + intros s l' Hl'. change (delete this (signals w1) !! s = Some l') in Hl'.
      destruct (decide (s = this)) as [->|Hs];
        [by rewrite lookup_delete_eq in Hl' |].
      rewrite lookup_delete_ne in Hl' by done. rewrite Hsig in Hl'.
      rewrite lookup_insert_ne in Hl' by done.
      destruct (wf_world_signal _ _ _ Hw Hl') as (Hwf & Hnd & Hlive).
      split_and!; [done | done |].
      pose proof (Hforeign s l' Hl' Hs) as Hag.
      rewrite Forall_forall in Hag, Hlive |- *. intros p Hp. simpl.
      rewrite (Hag p Hp). auto.
  - simpl. apply lookup_delete_eq.
  - intros p Hp. simpl. apply Hfree. by rewrite <- Hslots.
  - exact Hgone.
  - exact Hc_other.
  - apply exclusive_shrink.
    + intros s p. unfold slots_of.
      destruct (decide (s = this)) as [->|Hs].
      * change (signals w' !! this) with (delete this (signals w1) !! this).
        rewrite lookup_delete_eq. intros Hp. by apply elem_of_nil in Hp.
      * by rewrite (Hsig' s Hs).
  - split.
    + intros s r Hs.
      assert (s ≠ this) by (intros ->; by apply (Hgone r)).
      destruct (Hreg s r (Hs_sub s r Hs)) as (c & Hc & Ht).
      exists c. by rewrite Hc_other.
    + intros s c Hc.
      destruct (decide (s = this)) as [->|Hne];
        [rewrite Hc_this in Hc; by apply elem_of_nil in Hc |].
      rewrite Hc_other in Hc by done. pose proof (Hcon s c Hc) as Hs.
      rewrite Hs_new. case_decide; [|done].
      apply elem_of_difference. split; [done |].
      intros Hs'. by apply elem_of_singleton in Hs'.
Qed.

(** X10. In a heap in order, destroying a signal returns a well-formed
    heap in which the signal is gone, every connection object it owned
    is deleted, no receiver lists it, every other signal has the
    connections it had, every connection object still has one owner, and
    the sender sets and the connection lists still agree. *)
Theorem signal_destroy_keeps_invariant w this :
  wf_world w → owns_exclusively w this → consistent w →
  is_Some (signals w !! this) →
  ∃ w', signal_destroy w this = Ok w' ∧ wf_world w' ∧
        signals w' !! this = None ∧
        (∀ p, p ∈ slots_of w this → conns w' !! p = None) ∧
        (∀ r, this ∉ senders w' r) ∧
        (∀ s, s ≠ this → connections w' s = connections w s) ∧
        (exclusive w → exclusive w') ∧
        consistent w'.
Proof. apply signal_destroy_in_order. Qed.

(** Signal 10 of [w_two_signals] is destroyed; signal 11 stays connected
    to receiver 20. *)
Lemma signal_destroy_keeps_invariant_witness :
  ∃ w', signal_destroy w_two_signals 10 = Ok w' ∧ wf_world w' ∧
        signals w' !! 10 = None ∧
        conns w' !! 0 = None ∧ conns w' !! 1 = None ∧ conns w' !! 2 = None ∧
        connections w' 11 = [Connection 20 3] ∧
        exclusive w' ∧ consistent w'.
Proof.
  destruct (signal_destroy_keeps_invariant w_two_signals 10)
    as (w' & Hrun & Hw' & Hs & Hfree & _ & Hother & Hex & Hcon).
  - decide_by_computation.
  - decide_by_computation.
  - apply consistent_iff_check. decide_by_computation.
  - vm_compute. eauto.
  - exists w'. split_and!.
    + exact Hrun.
    + exact Hw'.
    + exact Hs.
    + apply Hfree. decide_by_computation.
    + apply Hfree. decide_by_computation.
    + apply Hfree. decide_by_computation.
    + apply (Hother 11). lia.
    + apply Hex. decide_by_computation.
    + exact Hcon.
Defined.

(** ** [connect] followed by [disconnect] *)



(** ** The copy of a signal, in general *)

(** X12. Copy-constructing a signal never looks at the connections of
    its source: whatever live signal is copied, the result is the heap
    with a new empty signal at the address of the copy.  No connection
    object is allocated, no sender set changes and no other signal
    changes. *)
Theorem signal_copy_ignores_source fuel w this s :
  is_Some (signals w !! s) → 0 < fuel →
  signal_copy fuel w this s = Ok (signal_new w this) ∧
  connections (signal_new w this) this = [] ∧
  conns (signal_new w this) = conns w ∧
  receivers (signal_new w this) = receivers w ∧
  ∀ s', s' ≠ this → signals (signal_new w this) !! s' = signals w !! s'.
Proof.
  intros Hs Hfuel. destruct fuel as [|fuel]; [lia |]. split_and!.
  - by apply signal_copy_spec.
  - unfold connections. simpl. by rewrite lookup_insert_eq.
  - done.
  - done.
  - intros s' Hne. simpl. by rewrite lookup_insert_ne.
Qed.

(** Signal 12 copied from signal 10 of [w_two_signals], which holds three
    connections. *)
Lemma signal_copy_ignores_source_witness :
  signal_copy 1 w_two_signals 12 10 = Ok (signal_new w_two_signals 12) ∧
  connections (signal_new w_two_signals 12) 12 = [] ∧
  senders (signal_new w_two_signals 12) 20 = {[10; 11]}.
Proof.
  destruct (signal_copy_ignores_source 1 w_two_signals 12 10) as (Hrun & Hc & _ & Hr & _).
  - vm_compute. eauto.
  - lia.
  - split_and!; [exact Hrun | exact Hc |]. unfold senders. rewrite Hr.
    vm_compute. reflexivity.
Defined.

(** ** Every heap the library reaches is in order *)

(** A larger budget returns the same heap. *)
Lemma slot_duplicate_from_fuel_mono this oldtarget newtarget fuel :
  ∀ fuel' w it w',
    fuel ≤ fuel' →
    slot_duplicate_from fuel w this oldtarget newtarget it = Ok w' →
    slot_duplicate_from fuel' w this oldtarget newtarget it = Ok w'.
Proof.
  induction fuel as [|fuel IH]; intros fuel' w it w' Hle Hrun; [done |].
  destruct fuel' as [|fuel']; [lia |].
  simpl in Hrun |- *. destruct it as [n|]; [|done].
  apply obind_Ok in Hrun as (l & Hl & Hrun). rewrite Hl. simpl.
  apply obind_Ok in Hrun as (slot & Hslot & Hrun).
  simpl in Hslot. rewrite Hslot. simpl.
  apply obind_Ok in Hrun as (d & Hd & Hrun). rewrite Hd. simpl.
  apply obind_Ok in Hrun as (w1 & Hw1 & Hrun). rewrite Hw1. simpl.
  apply obind_Ok in Hrun as (l1 & Hl1 & Hrun). rewrite Hl1. simpl.
  apply obind_Ok in Hrun as (it' & Hit & Hrun).
  simpl in Hit. rewrite Hit. simpl.
  apply IH; [lia | done].
Qed.

Lemma has_slots_copy_loop_fuel_mono fuel fuel' this hs (ss : list ptr) :
  fuel ≤ fuel' →
  ∀ w w', has_slots_copy_loop fuel w this hs ss = Ok w' →
          has_slots_copy_loop fuel' w this hs ss = Ok w'.
Proof.
  intros Hle. induction ss as [|s ss IH]; intros w w' Hrun; simpl in Hrun |- *; [done |].
  apply obind_Ok in Hrun as (w1 & Hdup & Hrun).
  apply obind_Ok in Hrun as (w2 & Hreg & Hrun).
  unfold slot_duplicate in Hdup |- *. apply obind_Ok in Hdup as (l & Hl & Hdup).
  rewrite Hl. simpl.
  rewrite (slot_duplicate_from_fuel_mono _ _ _ _ _ _ _ _ Hle Hdup). simpl.
  rewrite Hreg. simpl. by apply IH.
Qed.

Lemma has_slots_copy_fuel_mono fuel fuel' w this hs w' :
  fuel ≤ fuel' → has_slots_copy fuel w this hs = Ok w' →
  has_slots_copy fuel' w this hs = Ok w'.
Proof.
  intros Hle Hrun. unfold has_slots_copy in Hrun |- *.
  apply obind_Ok in Hrun as (ms & Hms & Hrun). rewrite Hms. simpl.
  by apply (has_slots_copy_loop_fuel_mono fuel fuel').
Qed.

(** Heaps with the same connections and the same sender sets agree on
    the registration invariant. *)
Lemma consistent_ext w w' :
  (∀ s, connections w' s = connections w s) →
  (∀ r, senders w' r = senders w r) →
  consistent w → consistent w'.
Proof.
  intros Hc Hs [Hreg Hcon]. split.
  - intros s r Hin. rewrite Hs in Hin. destruct (Hreg s r Hin) as (c & Hcin & Ht).
    exists c. by rewrite Hc.
  - intros s c Hcin. rewrite Hc in Hcin. rewrite Hs. by apply Hcon.
Qed.

Lemma empty_world_in_order : in_order empty_world.
Proof.
  split_and!.
  - split; apply map_Forall_empty.
  - apply map_Forall_empty.
  - split.
    + intros s r Hs. by apply elem_of_empty in Hs.
    + intros s c Hc. by apply elem_of_nil in Hc.
Qed.

Lemma empty_signal_in_order w this f :
  signals w !! this = None → in_order w →
  in_order (set_connected_slots w this (StdList.Mk [] f)).
Proof.
  intros Hfresh (Hw & Hex & Hcon).
  set (w' := set_connected_slots w this (StdList.Mk [] f)).
  assert (Hslots : ∀ s, slots_of w' s = slots_of w s).
  { intros s. unfold slots_of. simpl. destruct (decide (s = this)) as [->|Hs].
    - by rewrite lookup_insert_eq, Hfresh.
    - by rewrite lookup_insert_ne. }
  split_and!.
  - destruct Hw as [Hc Hs]. split; simpl; [done |].
    apply map_Forall_insert_2.
    + split_and!; simpl; [split; simpl; constructor | constructor | constructor].
    + eapply map_Forall_impl; [exact Hs |]. simpl. intros s l Hl.
      by eapply signal_ok_irrel; [| exact Hl].
  - apply (exclusive_shrink w); [| done]. intros s p. by rewrite Hslots.
  - apply (consistent_ext w); [| done | done].
    intros s. unfold connections. simpl. destruct (decide (s = this)) as [->|Hs].
    + by rewrite lookup_insert_eq, Hfresh.
    + by rewrite lookup_insert_ne.
Qed.

Lemma signal_new_in_order w this :
  signals w !! this = None → in_order w → in_order (signal_new w this).
Proof. apply empty_signal_in_order. Qed.

Lemma has_slots_new_in_order w this :
  receivers w !! this = None → in_order w → in_order (has_slots_new w this).
Proof.
  intros Hfresh (Hw & Hex & Hcon). split_and!.
  - by apply wf_world_set_receivers.
  - done.
  - apply (consistent_ext w); [done | | done].
    intros r. unfold senders. simpl. destruct (decide (r = this)) as [->|Hr].
    + by rewrite lookup_insert_eq, Hfresh.
    + by rewrite lookup_insert_ne.
Qed.

Lemma signal_copy_in_order fuel w this s w' :
  signals w !! this = None → signal_copy fuel w this s = Ok w' →
  in_order w → in_order w'.
Proof.
  intros Hfresh Hrun Hord.
  assert (Hs : is_Some (signals w !! s)).
  { unfold signal_copy in Hrun. apply obind_Ok in Hrun as (l & Hl & _).
    unfold m_connected_slots in Hl. destruct (signals w !! s); [eauto | done]. }
  destruct fuel as [|fuel].
  - unfold signal_copy in Hrun. apply obind_Ok in Hrun as (l & _ & Hrun).
    by apply obind_Ok in Hrun as (l' & _ & Hrun).
  - rewrite (signal_copy_spec fuel w this s Hs) in Hrun. injection Hrun as <-.
    by apply signal_new_in_order.
Qed.

Lemma connect_in_order w this pclass pmemfun w' :
  connect w this pclass pmemfun = Ok w' → in_order w → in_order w'.
Proof.
  intros Hrun (Hw & Hex & Hcon).
  pose proof (connect_consistent w this pclass pmemfun w' Hw Hcon Hrun) as Hcon'.
  destruct (signals w !! this) as [l|] eqn:Hl;
    [| by unfold connect, m_connected_slots in Hrun; rewrite Hl in Hrun].
  destruct (receivers w !! pclass) as [ms|] eqn:Hms.
  2:{ unfold connect, m_connected_slots, push_back_slot, m_connected_slots in Hrun.
      simpl in Hrun. rewrite Hl in Hrun. simpl in Hrun.
      unfold signal_connect in Hrun. simpl in Hrun. by rewrite Hms in Hrun. }
  rewrite (connect_spec w this pclass pmemfun l ms Hl Hms) in Hrun.
  injection Hrun as <-. split_and!; [| | done].
  - apply wf_world_set_receivers. by apply wf_world_alloc_push.
  - apply exclusive_set_receivers. by apply alloc_push_exclusive.
Qed.

Lemma has_slots_copy_in_order fuel w this hs w' :
  receivers w !! this = None → has_slots_copy fuel w this hs = Ok w' →
  in_order w → in_order w'.
Proof.
  intros Hfresh Hrun (Hw & Hex & Hcon).
  destruct (receivers w !! hs) as [ms|] eqn:Hms;
    [| by unfold has_slots_copy in Hrun; rewrite Hms in Hrun].
  set (visited := λ s, length (connections w s) +
                       length (filter (targets hs) (connections w s))).
  set (big := fuel + S (sum_list_with visited (elements ms))).
  assert (Hbig : ∀ s, s ∈ ms → visited s < big).
  { intros s Hs. apply elem_of_elements in Hs.
    pose proof (sum_list_with_in s visited _ Hs). unfold big. lia. }
  assert (Hrun' : has_slots_copy big w this hs = Ok w').
  { apply (has_slots_copy_fuel_mono fuel); [unfold big; lia | done]. }
  destruct (has_slots_copy_consistent big w this hs ms Hw Hcon Hms Hfresh Hbig)
    as (w1 & Hrun1 & Hcon1).
  rewrite Hrun' in Hrun1. injection Hrun1 as <-.
  assert (Hlive : ∀ s, s ∈ ms → is_Some (signals w !! s) ∧ visited s < big).
  { intros s Hs. split; [| by auto]. destruct Hcon as [Hreg _].
    destruct (Hreg s hs) as (c & Hc & _); [unfold senders; by rewrite Hms |].
    unfold connections in Hc. destruct (signals w !! s); [eauto |].
    by apply elem_of_nil in Hc. }
  destruct (has_slots_copy_spec big w this hs ms Hw Hms Hfresh Hlive)
    as (w2 & Hrun2 & Hw2 & _).
  rewrite Hrun' in Hrun2. injection Hrun2 as <-.
  split_and!; [done | | done].
  by apply (has_slots_copy_keeps_exclusive fuel w this hs).
Qed.

Lemma disconnect_single_in_order w this pclass w' :
  length (filter (targets pclass) (connections w this)) ≤ 1 →
  disconnect w this pclass = Ok w' → in_order w → in_order w'.
Proof.
  intros Hlen Hrun (Hw & Hex & Hcon).
  destruct (signals w !! this) as [l|] eqn:Hl;
    [| by unfold disconnect, m_connected_slots in Hrun; rewrite Hl in Hrun].
  destruct (decide (Exists (targets pclass) (connections w this))) as [Hm|Hm].
  - destruct (disconnect_in_order w this pclass Hw (Hex this l Hl) Hcon)
      as (w1 & Hrun1 & Hw1 & _ & _ & Hex1 & Hiff); [eauto | done |].
    rewrite Hrun in Hrun1. injection Hrun1 as <-.
    split_and!; [done | by apply Hex1 |]. apply Hiff.
    pose proof (filter_none (targets pclass) (connections w this)) as Hnone.
    destruct (filter (targets pclass) (connections w this)) as [|c [|]] eqn:Hf;
      simpl in *; [| done | lia].
    exfalso. apply Exists_exists in Hm as (c & Hc & Ht).
    assert (Hin : c ∈ filter (targets pclass) (connections w this))
      by (by apply list_elem_of_filter).
    rewrite Hf in Hin. by apply elem_of_nil in Hin.
  - rewrite (disconnect_never_connected w this pclass l Hl (wf_world_signal _ _ _ Hw Hl))
      in Hrun.
    + by injection Hrun as <-.
    + apply Forall_forall. intros c Hc Ht. apply Hm, Exists_exists. eauto.
Qed.

Lemma signal_destroy_reached_in_order w this w' :
  signal_destroy w this = Ok w' → in_order w → in_order w'.
Proof.
  intros Hrun (Hw & Hex & Hcon).
  destruct (signals w !! this) as [l|] eqn:Hl.
  2:{ unfold signal_destroy, signal_disconnect_all, m_connected_slots in Hrun.
      by rewrite Hl in Hrun. }
  destruct (signal_destroy_in_order w this Hw (Hex this l Hl) Hcon)
    as (w1 & Hrun1 & Hw1 & _ & _ & _ & _ & Hex1 & Hcon1); [eauto |].
  rewrite Hrun in Hrun1. injection Hrun1 as <-.
  split_and!; [done | by apply Hex1 | done].
Qed.

Lemma has_slots_disconnect_all_Ok fuel w this w' :
  has_slots_disconnect_all fuel w this = Ok w' →
  wf_world w → senders_have_connection w → w' = w.
Proof.
  intros Hrun Hw Hreg. pose proof Hrun as Hrun'.
  unfold has_slots_disconnect_all in Hrun.
  apply obind_Ok in Hrun as (ms & Hms & Hrun).
  apply obind_Ok in Hrun as (w0 & Hloop & Hrun).
  apply obind_Ok in Hrun as (ms0 & _ & Hrun). injection Hrun as <-.
  destruct (has_slots_disconnect_all_loop_Ok _ _ _ _ _ Hloop) as [-> _].
  assert (Hdestroy : has_slots_destroy fuel w this =
                     Ok (set_receivers (set_receivers w (<[this := ∅]> (receivers w)))
                           (delete this (<[this := ∅]> (receivers w))))).
  { unfold has_slots_destroy. by rewrite Hrun'. }
  destruct (has_slots_destroy_Ok _ _ _ _ Hdestroy) as (_ & _ & Hempty).
  specialize (Hempty Hw Hreg). unfold senders in Hempty.
  unfold deref in Hms. destruct (receivers w !! this) as [ms'|] eqn:Hthis; [|done].
  simpl in Hempty. subst ms'. by apply set_receivers_same.
Qed.

Lemma has_slots_disconnect_all_reached_in_order fuel w this w' :
  has_slots_disconnect_all fuel w this = Ok w' → in_order w → in_order w'.
Proof.
  intros Hrun (Hw & Hex & Hcon).
  rewrite (has_slots_disconnect_all_Ok fuel w this w' Hrun Hw (proj1 Hcon)). done.
Qed.

Lemma has_slots_destroy_reached_in_order fuel w this w' :
  has_slots_destroy fuel w this = Ok w' → in_order w → in_order w'.
Proof.
  intros Hrun (Hw & Hex & Hcon).
  destruct (has_slots_destroy_Ok fuel w this w' Hrun) as (-> & _ & Hempty).
  specialize (Hempty Hw (proj1 Hcon)).
  split_and!.
  - by apply wf_world_set_receivers.
  - done.
  - destruct Hcon as [Hreg Hcon].
    assert (Hs_new : ∀ r, r ≠ this →
              senders (set_receivers w (delete this (receivers w))) r = senders w r).
    { intros r Hr. unfold senders. simpl. by rewrite lookup_delete_ne. }
    assert (Hs_this : senders (set_receivers w (delete this (receivers w))) this = ∅).
    { unfold senders. simpl. by rewrite lookup_delete_eq. }
    split.
    + intros s r Hs. destruct (decide (r = this)) as [->|Hr].
      * rewrite Hs_this in Hs. by apply elem_of_empty in Hs.
      * rewrite (Hs_new r Hr) in Hs. by apply Hreg.
    + intros s c Hc. rewrite connections_set_receivers in Hc.
      pose proof (Hcon s c Hc) as Hs.
      destruct (decide (m_pobject c = this)) as [Heq|Hne].
      * rewrite Heq, Hempty in Hs. by apply elem_of_empty in Hs.
      * by rewrite (Hs_new _ Hne).
Qed.

Lemma signal_disconnect_all_reached_in_order w this w1 :
  signal_disconnect_all w this = Ok w1 → in_order w → in_order w1.
Proof.
  intros Hrun Hord.
  assert (Hempty : ∃ f, signals w1 !! this = Some (StdList.Mk [] f)).
  { pose proof Hrun as Hrun'. unfold signal_disconnect_all in Hrun'.
    apply obind_Ok in Hrun' as (l & _ & Hrun').
    apply obind_Ok in Hrun' as (w0 & _ & Hrun').
    apply obind_Ok in Hrun' as (l1 & _ & Hrun'). injection Hrun' as <-.
    exists (StdList.fresh l1). simpl. apply lookup_insert_eq. }
  destruct Hempty as [f Hf].
  set (w' := set_signals w1 (delete this (signals w1))).
  assert (Hdestroy : signal_destroy w this = Ok w').
  { unfold signal_destroy. by rewrite Hrun. }
  pose proof (signal_destroy_reached_in_order _ _ _ Hdestroy Hord) as Hord'.
  assert (Hw1 : w1 = set_connected_slots w' this (StdList.Mk [] f)).
  { unfold w'. destruct w1 as [c sg r b]. unfold set_connected_slots, set_signals.
    simpl in *. f_equal. rewrite insert_delete_eq. symmetry. by apply insert_id. }
  rewrite Hw1. apply empty_signal_in_order; [| done]. simpl. apply lookup_delete_eq.
Qed.

Lemma reachable_keeps_order w : reachable w → in_order w.
Proof.
  induction 1 as [ | w this _ IH Hf | w this _ IH Hf | fuel w this s w' _ IH Hf Hrun
                   | fuel w this hs w' _ IH Hf Hrun | w this pclass pmemfun w' _ IH Hrun
                   | w this pclass w' _ IH Hlen Hrun | w this w' _ IH Hrun
                   | w this w' _ IH Hrun | fuel w this w' _ IH Hrun
                   | fuel w this w' _ IH Hrun ].
  - exact empty_world_in_order.
  - by apply signal_new_in_order.
  - by apply has_slots_new_in_order.
  - by apply (signal_copy_in_order fuel w this s).
  - by apply (has_slots_copy_in_order fuel w this hs).
  - by apply (connect_in_order w this pclass pmemfun).
  - by apply (disconnect_single_in_order w this pclass).
  - by apply (signal_disconnect_all_reached_in_order w this).
  - by apply (signal_destroy_reached_in_order w this).
  - by apply (has_slots_disconnect_all_reached_in_order fuel w this).
  - by apply (has_slots_destroy_reached_in_order fuel w this).
Qed.

(** X13. Every heap reached from the empty one by the constructors, the
    copy constructors, [connect], both [disconnect_all], both destructors
    and [disconnect] of a receiver to which the signal holds at most one
    connection is in order: the lists hold distinct pointers to live
    connection objects, every connection object has one owner, and a
    signal is in the sender set of a receiver exactly when it holds a
    connection to it.  In such a heap no connection targets a destroyed
    receiver: [emit] on any live signal returns, invoking its
    connections in order. *)
Theorem reachable_heaps_are_in_order {Args : Type} w this (args : Args) :
  reachable w →
  wf_world w ∧ exclusive w ∧ consistent w ∧
  (is_Some (signals w !! this) →
     emit w this args = Ok (invoke args <$> connections w this)).
Proof.
  intros Hreach. destruct (reachable_keeps_order w Hreach) as (Hw & Hex & Hcon).
  split_and!; try done.
  intros [l Hl]. apply (emit_spec w this l args Hl (wf_world_signal _ _ _ Hw Hl)).
  apply Forall_forall. intros c Hc. destruct Hcon as [_ Hcon].
  pose proof (Hcon this c Hc) as Hs. unfold senders in Hs.
  destruct (receivers w !! m_pobject c); [eauto |]. by apply elem_of_empty in Hs.
Qed.

(** [w_two] is reached by two constructors and two [connect] calls. *)
Lemma reachable_heaps_witness :
  wf_world w_two ∧ exclusive w_two ∧ consistent w_two ∧
  emit w_two 10 7 = Ok [Call 20 1 7; Call 20 2 7].
Proof.
  destruct (reachable_heaps_are_in_order w_two 10 7) as (Hw & Hex & Hcon & Hemit).
  - apply (reach_connect w_one 10 20 2); [| vm_compute; reflexivity].
    apply (reach_connect w_fresh 10 20 1); [| vm_compute; reflexivity].
    apply reach_has_slots_new; [| vm_compute; reflexivity].
    apply reach_signal_new; [| vm_compute; reflexivity].
    apply reach_empty.
  - split_and!; [exact Hw | exact Hex | exact Hcon |].
    apply Hemit. vm_compute. eauto.
Defined.
